(** * konlpy/tag/_mecab.py: the MeCab-ko wrapper and its output formatter

    A shallow embedding of [konlpy/tag/_mecab.py].  The module only loads on
    Python 3 (the inner [split] carries a return annotation), so a [str] is a
    sequence of Unicode code points and the [sys.version_info[0] < 3] arm of
    [Mecab.pos] is never taken.  Exceptions are explicit: every function that
    can raise returns an [outcome]. *)

From stdpp Require Import list numbers strings gmap.

Local Open Scope N_scope.

(** ** Python strings *)

(** One Unicode code point. *)
Definition char := N.

(** A Python 3 [str]. *)
Definition str := list char.

(** The code points of a literal whose characters are all ASCII. *)
Fixpoint lit (s : string) : str :=
  match s with
  | EmptyString => []
  | String a s' => Ascii.N_of_ascii a :: lit s'
  end.

Definition TAB : char := 9.
Definition LF : char := 10.
Definition CR : char := 13.
Definition DQUOTE : char := 34.
Definition PLUS : char := 43.
Definition COMMA : char := 44.
Definition SLASH : char := 47.

(** ** Exceptions *)

Inductive exn :=
| IndexError
| ValueError
| TypeError
| RuntimeError
| ValidationError
| Exception (msg : str).

Inductive outcome (A : Type) :=
| Ok (a : A)
| Raise (e : exn).
Arguments Ok {A} a.
Arguments Raise {A} e.

Global Instance outcome_ret : MRet outcome := λ A a, Ok a.
Global Instance outcome_bind : MBind outcome := λ A B f m,
  match m with
  | Ok a => f a
  | Raise e => Raise e
  end.

(** [l[i]] for a non-negative literal index [i]. *)
Definition getitem {A} (l : list A) (i : nat) : outcome A :=
  match l !! i with
  | Some x => Ok x
  | None => Raise IndexError
  end.

(** [l[:-1]]. *)
Definition but_last {A} (l : list A) : list A := take (length l - 1)%nat l.

(** [not s] for a string [s]. *)
Definition str_not (s : str) : bool :=
  match s with
  | [] => true
  | _ :: _ => false
  end.

(** [s.split(sep)] for a one-character separator. *)
Fixpoint str_split (sep : char) (s : str) : list str :=
  match s with
  | [] => [[]]
  | c :: rest =>
      if decide (c = sep) then [] :: str_split sep rest
      else match str_split sep rest with
           | piece :: pieces => (c :: piece) :: pieces
           | [] => [[c]]
           end
  end.

(** [s.split(sep, 1)] for a one-character separator. *)
Fixpoint str_split1 (sep : char) (s : str) : list str :=
  match s with
  | [] => [[]]
  | c :: rest =>
      if decide (c = sep) then [[]; rest]
      else match str_split1 sep rest with
           | piece :: pieces => (c :: piece) :: pieces
           | [] => [[c]]
           end
  end.

(** The line boundaries of [str.splitlines]. *)
Definition is_linebreak (c : char) : bool :=
  bool_decide (c ∈ [10; 11; 12; 13; 28; 29; 30; 133; 8232; 8233]).

(** [s.splitlines()]: a CR LF pair is one boundary, and a boundary at the
    very end opens no further line. *)
Fixpoint splitlines (s : str) : list str :=
  match s with
  | [] => []
  | c :: rest =>
      if is_linebreak c then
        [] :: match rest with
              | c' :: rest' =>
                  if decide (c = CR ∧ c' = LF) then splitlines rest'
                  else splitlines rest
              | [] => []
              end
      else match splitlines rest with
           | line :: lines => (c :: line) :: lines
           | [] => [[c]]
           end
  end.

(** The characters [str.isspace] accepts. *)
Definition isspace (c : char) : bool :=
  bool_decide (c ∈ [9; 10; 11; 12; 13; 28; 29; 30; 31; 32; 133; 160; 5760;
                    8192; 8193; 8194; 8195; 8196; 8197; 8198; 8199; 8200;
                    8201; 8202; 8232; 8233; 8239; 8287; 12288]).

(** [s.split()]: the maximal runs of non-whitespace characters. *)
Fixpoint str_split_ws (s : str) : list str :=
  match s with
  | [] => []
  | c :: rest =>
      if isspace c then str_split_ws rest
      else match rest with
           | c' :: _ =>
               if isspace c' then [c] :: str_split_ws rest
               else match str_split_ws rest with
                    | word :: words => (c :: word) :: words
                    | [] => [[c]]
                    end
           | [] => [[c]]
           end
  end.

(** [s.startswith(prefix)]. *)
Fixpoint startswith (s prefix : str) {struct prefix} : bool :=
  match prefix, s with
  | [], _ => true
  | p :: prefix', c :: s' => bool_decide (c = p) && startswith s' prefix'
  | _ :: _, [] => false
  end.

(** ** The formatter: [parse] and its inner [split] *)

(** The names of the comma-separated features of a line, by position. *)
Definition attrs : list str :=
  [lit "tags"; lit "semantic"; lit "has_jongsung"; lit "read"; lit "type";
   lit "first_pos"; lit "last_pos"; lit "original"; lit "indexed"].

(** What the formatter emits for one morpheme: the tuple [(surface, tag)],
    or with [join] the single string [surface + '/' + tag]. *)
Inductive morph :=
| Pair (s t : str)
| Joined (st : str).

(** The body of the [for token in tokens] loop, [res] being the list built
    so far. *)
Fixpoint split_loop (join : bool) (tokens : list (list str)) (res : list morph)
  : outcome (list morph) :=
  match tokens with
  | [] => Ok res
  | token :: tokens' =>
      m ← (if join then
             t0 ← getitem token 0; t1 ← getitem token 1;
             Ok (Joined (t0 ++ [SLASH] ++ t1))
           else
             t0 ← getitem token 0; t1 ← getitem token 1;
             Ok (Pair t0 t1));
      split_loop join tokens' (res ++ [m])
  end.

Definition split (elem : str) (join split_inflect : bool) : outcome (list morph) :=
  if str_not elem then Ok [Pair [] (lit "SY")] else
  let segments := str_split1 TAB elem in
  if negb (bool_decide (length segments = 2%nat)) then Ok [Pair [] (lit "SY")] else
  match segments with
  | [s; t] =>
      let features := str_split COMMA t in
      inflect ← (if split_inflect then
                   f4 ← getitem features 4; Ok (bool_decide (f4 = lit "Inflect"))
                 else Ok false);
      if inflect : bool then
        original ← getitem features 7;
        let tokens := str_split PLUS original in
        let tokens := str_split SLASH <$> tokens in
        split_loop join tokens []
      else
        tag ← getitem features 0;
        if join then Ok [Joined (s ++ [SLASH] ++ tag)]
        else Ok [Pair s tag]
  | _ => Raise ValueError
  end.

(** The [for elem in result.splitlines()[:-1]] loop of the [split_inflect]
    arm. *)
Fixpoint parse_loop (join : bool) (elems : list str) (res : list morph)
  : outcome (list morph) :=
  match elems with
  | [] => Ok res
  | elem :: elems' =>
      morphs ← split elem join true;
      parse_loop join elems' (res ++ morphs)
  end.

(** [parse(result, allattrs, join, split_inflect)]; the body never reads
    [allattrs], and no caller passes it, so it is left out. *)
Definition parse (result : str) (join split_inflect : bool) : outcome (list morph) :=
  if split_inflect then
    parse_loop join (but_last (splitlines result)) []
  else
    mapM (λ elem, r ← split elem join false; getitem r 0)
         (but_last (splitlines result)).

(** ** The [Mecab] class *)

(** What a caller can hand to [pos] as [phrase]. *)
Inductive pyarg :=
| PStr (s : str)
| PNone
| PInt (n : Z)
| PBytes (b : list N)
| PList (l : list str).

(** Modelled from the spec: [konlpy.tag._common.validate_phrase_inputs] is
    imported by the module but its source is not part of it; the interface
    description says that non-text input (the empty type, a wrong type) is
    rejected with a validation error before any processing. *)
Definition validate_phrase_inputs (phrase : pyarg) : outcome unit :=
  match phrase with
  | PStr _ => Ok ()
  | _ => Raise ValidationError
  end.

(** A MeCab tagger handle: its [parse] method, from the phrase to the text
    dump (one line per morpheme, then a closing line). *)
Record Tagger := { tagger_parse : str → outcome str }.

Record Mecab (json : Type) := {
  dicpath : str;
  tagger : Tagger;
  tagset : json;
}.
Arguments dicpath {json} _.
Arguments tagger {json} _.
Arguments tagset {json} _.

(** [pos] returns a flat list, or with [flatten=False] a list of lists. *)
Definition pos_type (flatten : bool) : Type :=
  if flatten then list morph else list (list morph).

(** The target of [for s, t in ...]: a 2-tuple unpacks into its components, a
    string only when it has exactly two characters. *)
Definition unpack2 (m : morph) : outcome (str * str) :=
  match m with
  | Pair s t => Ok (s, t)
  | Joined [a; b] => Ok ([a], [b])
  | Joined _ => Raise ValueError
  end.

(** [[s for s, t in tagged if t.startswith('N')]]. *)
Fixpoint nouns_comprehension (tagged : list morph) : outcome (list str) :=
  match tagged with
  | [] => Ok []
  | m :: tagged' =>
      '(s, t) ← unpack2 m;
      rest ← nouns_comprehension tagged';
      Ok (if startswith t (lit "N") then s :: rest else rest)
  end.

Section Mecab.
Context {json : Type}.

(** The Python 3 arm of [pos].  Once [validate_phrase_inputs] has returned,
    [phrase] is a string; the last arm of the match is never reached. *)
Definition pos (self : Mecab json) (phrase : pyarg)
    (flatten join split_inflect : bool) : outcome (pos_type flatten) :=
  _ ← validate_phrase_inputs phrase;
  match phrase with
  | PStr phrase =>
      match flatten return outcome (pos_type flatten) with
      | true =>
          result ← tagger_parse (tagger self) phrase;
          parse result join split_inflect
      | false =>
          mapM (λ eojeol,
                  result ← tagger_parse (tagger self) eojeol;
                  parse result join split_inflect)
               (str_split_ws phrase)
      end
  | _ => Raise TypeError
  end.

Definition morphs (self : Mecab json) (phrase : pyarg) : outcome (list str) :=
  tagged ← pos self phrase true false false;
  mapM (λ m, '(s, t) ← unpack2 m; Ok s) tagged.

Definition nouns (self : Mecab json) (phrase : pyarg) : outcome (list str) :=
  tagged ← pos self phrase true false false;
  nouns_comprehension tagged.

(** *** Construction *)

(** The collaborators of [__init__]: the [Tagger] constructor called with an
    argument string or with none, the dictionary directory shipped by
    [mecab_ko_dic], and [utils.read_json] with [utils.installpath]. *)
Variable new_Tagger : option str → outcome Tagger.
Variable DICDIR : str.
Variable read_json : str → outcome json.
Variable installpath : str.

(** Truth value of the [dicpath] argument: [None] and [''] are false. *)
Definition truthy (dicpath : option str) : bool :=
  match dicpath with
  | Some (_ :: _) => true
  | _ => false
  end.

(** ['%s' % dicpath]. *)
Definition percent_s (dicpath : option str) : str :=
  match dicpath with
  | Some s => s
  | None => lit "None"
  end.

(** The text of the exception raised by the [except RuntimeError] arm,
    [shown] being what [%s] expands to. *)
Definition load_error_message (shown : str) : str :=
  lit "The MeCab dictionary does not exist at " ++ [DQUOTE] ++ shown
  ++ [DQUOTE] ++ lit ". Is the dictionary correctly installed?" ++ [LF]
  ++ lit "You can also try entering the dictionary path when initializing the Mecab class: "
  ++ [DQUOTE] ++ lit "Mecab('/some/dic/path')" ++ [DQUOTE].

(** The [try] block of [__init__]. *)
Definition init_body (dicpath : option str) : outcome (Mecab json) :=
  '(path, tg) ← (if truthy dicpath then
                   tg ← new_Tagger (Some (lit "-d " ++ percent_s dicpath));
                   Ok (percent_s dicpath, tg)
                 else
                   tg ← new_Tagger None;
                   Ok (DICDIR, tg));
  ts ← read_json (installpath ++ lit "/data/tagset/mecab.json");
  Ok {| dicpath := path; tagger := tg; tagset := ts |}.

Definition init (dicpath : option str) : outcome (Mecab json) :=
  match init_body dicpath with
  | Raise RuntimeError =>
      Raise (Exception (load_error_message (percent_s dicpath)))
  | r => r
  end.
End Mecab.

(** [needle in hay]. *)
Fixpoint str_contains (hay needle : str) : bool :=
  startswith hay needle ||
  match hay with
  | [] => false
  | _ :: hay' => str_contains hay' needle
  end.

(** ** Reference definitions for the statements below *)

(** The placeholder the formatter emits for a line it cannot take apart. *)
Definition placeholder : morph := Pair [] (lit "SY").

(** The text of [s] before the first [sep] (all of [s] if there is none). *)
Fixpoint before (sep : char) (s : str) : str :=
  match s with
  | [] => []
  | c :: rest => if decide (c = sep) then [] else c :: before sep rest
  end.

(** [sep.join(pieces)]. *)
Fixpoint str_join (sep : str) (pieces : list str) : str :=
  match pieces with
  | [] => []
  | [piece] => piece
  | piece :: pieces' => piece ++ sep ++ str_join sep pieces'
  end.

(** The two-level split in the words of the design: the [original] field is
    cut at every [+], each token at every [/], and a token gives the pair of
    its first two pieces. *)
Definition token_pair (token : str) : outcome morph :=
  match str_split SLASH token with
  | sub :: tag :: _ => Ok (Pair sub tag)
  | _ => Raise IndexError
  end.

Definition expand_original (original : str) : outcome (list morph) :=
  mapM token_pair (str_split PLUS original).

(** The same with [join]: a token gives [sub + '/' + tag]. *)
Definition token_joined (token : str) : outcome morph :=
  match str_split SLASH token with
  | sub :: tag :: _ => Ok (Joined (sub ++ [SLASH] ++ tag))
  | _ => Raise IndexError
  end.

(** What [parse] collects from the lines it keeps. *)
Definition parse_lines (elems : list str) (join split_inflect : bool)
  : outcome (list morph) :=
  if split_inflect then parse_loop join elems []
  else mapM (λ elem, r ← split elem join false; getitem r 0) elems.

(** [segs] are the whitespace-delimited segments of a string, in order:
    leading whitespace, then a non-empty run free of whitespace that ends at
    the end of the string or at a whitespace character, and so on. *)
Inductive eojeols : str → list str → Prop :=
| eojeols_done (ws : str) :
    Forall (λ c, isspace c = true) ws → eojeols ws []
| eojeols_word (ws word rest : str) (segs : list str) :
    Forall (λ c, isspace c = true) ws →
    word ≠ [] →
    Forall (λ c, isspace c = false) word →
    (rest = [] ∨ ∃ c rest', rest = c :: rest' ∧ isspace c = true) →
    eojeols rest segs →
    eojeols (ws ++ word ++ rest) (word :: segs).

(** The empty result of [pos], flat or not. *)
Definition no_tokens (flatten : bool) : pos_type flatten :=
  match flatten with
  | true => []
  | false => []
  end.

(** ** Sample data *)

(** The line MeCab-ko prints for the inflected form U+D588 (surface and
    reading), whose [original] field spells the stem U+D558 and the ending
    U+C558: [VV+EP,*,T,_,Inflect,VV,EP,_/VV/*+_/EP/*] after the tab. *)
Definition inflect_line : str :=
  [54664] ++ [TAB] ++ lit "VV+EP,*,T," ++ [54664] ++ lit ",Inflect,VV,EP,"
  ++ [54616] ++ lit "/VV/*+" ++ [50520] ++ lit "/EP/*".

(** The features of a plain noun. *)
Definition noun_features : str := lit "NNG,*,F,a,*,*,*,*".

(** A dump of one noun line and the closing line. *)
Definition noun_dump : str :=
  lit "a" ++ [TAB] ++ noun_features ++ [LF] ++ lit "EOS" ++ [LF].

(** A dump with an empty line between a noun line and the closing line. *)
Definition gap_dump : str :=
  lit "a" ++ [TAB] ++ noun_features ++ [LF] ++ [LF] ++ lit "EOS" ++ [LF].

(** A tagger that answers every phrase with [dump]. *)
Definition constant_tagger (dump : str) : Tagger :=
  {| tagger_parse := λ _, Ok dump |}.

(** A tagger that tags every phrase it is given as one noun. *)
Definition noun_tagger : Tagger :=
  {| tagger_parse := λ phrase,
       Ok (phrase ++ [TAB] ++ noun_features ++ [LF] ++ lit "EOS" ++ [LF]) |}.

Definition noun_mecab : Mecab unit :=
  {| dicpath := lit "/usr/local/lib/mecab/dic/mecab-ko-dic";
     tagger := noun_tagger;
     tagset := () |}.

Definition sample_mecab (dump : str) : Mecab unit :=
  {| dicpath := lit "/usr/local/lib/mecab/dic/mecab-ko-dic";
     tagger := constant_tagger dump;
     tagset := () |}.

(** ** Pickling *)

(** [__getstate__]: the dict [{'dicpath': self.dicpath}]. *)
Definition getstate {json} (self : Mecab json) : gmap str (option str) :=
  {[ lit "dicpath" := Some (dicpath self) ]}.

(** How [__setstate__] ends: the object re-initialised, the [KeyError] of
    [state['dicpath']], or whatever [__init__] raised. *)
Inductive restored (json : Type) :=
| Restored (self : Mecab json)
| KeyError (key : str)
| InitRaised (e : exn).
Arguments Restored {json} self.
Arguments KeyError {json} key.
Arguments InitRaised {json} e.

(** [__setstate__]: [self.__init__(dicpath=state['dicpath'])]. *)
Definition setstate {json} (new_Tagger : option str → outcome Tagger)
    (DICDIR : str) (read_json : str → outcome json) (installpath : str)
    (state : gmap str (option str)) : restored json :=
  match state !! lit "dicpath" with
  | None => KeyError (lit "dicpath")
  | Some dicpath =>
      match init new_Tagger DICDIR read_json installpath dicpath with
      | Ok self => Restored self
      | Raise e => InitRaised e
      end
  end.

(** ** Further reference definitions *)

(** The string [join] makes of a pair. *)
Definition join_morph (m : morph) : morph :=
  match m with
  | Pair s t => Joined (s ++ [SLASH] ++ t)
  | Joined st => Joined st
  end.

(** A line that [split_inflect] leaves alone: it has no tab, or its field 4
    exists and is not 'Inflect'. *)
Definition plain_line (elem : str) : Prop :=
  TAB ∉ elem
  ∨ ∃ s t f4, elem = s ++ TAB :: t ∧ (TAB ∉ s)
              ∧ str_split COMMA t !! 4%nat = Some f4 ∧ f4 ≠ lit "Inflect".

(** A collaborator set for examples: a tagger constructor that accepts only
    the dictionary at [/dic], and a tagset reader that always succeeds. *)
Definition sample_new_Tagger (args : option str) : outcome Tagger :=
  match args with
  | Some a => if bool_decide (a = lit "-d /dic") then Ok noun_tagger
              else Raise RuntimeError
  | None => Ok noun_tagger
  end.

Definition sample_read_json (path : str) : outcome unit := Ok ().

(** An engine whose tagger raises on every phrase. *)
Definition failing_mecab : Mecab unit :=
  {| dicpath := lit "/dic";
     tagger := {| tagger_parse := λ _, Raise RuntimeError |};
     tagset := () |}.

(** ** Python primitives *)

Lemma bind_Ok {A B} (f : A → outcome B) (a : A) : Ok a ≫= f = f a.
Proof. reflexivity. Qed.

Example attrs_positions :
  attrs !! 0%nat = Some (lit "tags") ∧ attrs !! 4%nat = Some (lit "type")
  ∧ attrs !! 7%nat = Some (lit "original").
Proof. done. Qed.

Example str_split_sample :
  str_split COMMA (lit ",a,,b,") = [[]; lit "a"; []; lit "b"; []].
Proof. reflexivity. Qed.

Example str_split1_sample :
  str_split1 TAB (lit "a" ++ [TAB] ++ lit "b" ++ [TAB] ++ lit "c")
  = [lit "a"; lit "b" ++ [TAB] ++ lit "c"].
Proof. reflexivity. Qed.

Example splitlines_sample :
  splitlines (lit "ab" ++ [CR; LF] ++ lit "c" ++ [CR] ++ [LF; LF])
  = [lit "ab"; lit "c"; []].
Proof. reflexivity. Qed.

Example splitlines_empty : splitlines [] = [].
Proof. reflexivity. Qed.

Example str_split_ws_sample :
  str_split_ws (lit "  ab " ++ [12288] ++ lit "c" ++ [TAB] ++ lit "d ")
  = [lit "ab"; lit "c"; lit "d"].
Proof. reflexivity. Qed.

Lemma getitem_lookup {A} (l : list A) (i : nat) (x : A) :
  l !! i = Some x → getitem l i = Ok x.
Proof. unfold getitem. by intros ->. Qed.

Lemma but_last_snoc {A} (l : list A) (x : A) : but_last (l ++ [x]) = l.
Proof.
  unfold but_last. rewrite length_app. simpl.
  replace (length l + 1 - 1)%nat with (length l) by lia.
  by rewrite take_app_length.
Qed.

Lemma but_last_short {A} (l : list A) : (length l ≤ 1)%nat → but_last l = [].
Proof.
  unfold but_last. intros Hl.
  replace (length l - 1)%nat with 0%nat by lia. done.
Qed.

Lemma str_split_nonempty sep s : str_split sep s ≠ [].
Proof. destruct s as [|c rest]; simpl; [done|]. case_decide; [done|]. by destruct (str_split sep rest). Qed.

Lemma str_split_head sep s : str_split sep s !! 0%nat = Some (before sep s).
Proof.
  induction s as [|c rest IH]; simpl; [done|].
  case_decide; [done|].
  destruct (str_split sep rest) as [|piece pieces]; simpl in *; [done|].
  by simplify_eq.
Qed.

Lemma before_no_sep sep s : sep ∉ before sep s.
Proof.
  induction s as [|c rest IH]; simpl; [apply not_elem_of_nil|].
  case_decide; [apply not_elem_of_nil|]. by apply not_elem_of_cons.
Qed.

(** A string has a second piece exactly when it holds the separator. *)
Lemma str_split_second sep s : is_Some (str_split sep s !! 1%nat) ↔ sep ∈ s.
Proof.
  induction s as [|c rest IH]; simpl.
  - rewrite elem_of_nil. split; [by intros [? ?]|done].
  - pose proof (str_split_nonempty sep rest) as Hne.
    rewrite elem_of_cons. case_decide as Hc.
    + subst. split; [by left|]. intros _.
      destruct (str_split sep rest); [done|]. by eexists.
    + destruct (str_split sep rest) as [|piece pieces]; [done|].
      simpl in *. rewrite IH. split; [by right|]. by intros [?|?].
Qed.

Lemma str_split1_without sep s : sep ∉ s → str_split1 sep s = [s].
Proof.
  induction s as [|c rest IH]; simpl; [done|].
  rewrite not_elem_of_cons. intros [Hc Hrest].
  case_decide; [done|]. by rewrite IH.
Qed.

Lemma str_split1_at sep s t : sep ∉ s → str_split1 sep (s ++ sep :: t) = [s; t].
Proof.
  induction s as [|c rest IH]; simpl.
  - intros _. by case_decide.
  - rewrite not_elem_of_cons. intros [Hc Hrest].
    case_decide; [done|]. by rewrite IH.
Qed.

(** Every string either has no separator or splits at its first one. *)
Lemma str_first_sep sep (s : str) :
  sep ∉ s ∨ ∃ s1 s2, s = s1 ++ sep :: s2 ∧ sep ∉ s1.
Proof.
  induction s as [|c rest IH]; [left; apply not_elem_of_nil|].
  destruct (decide (c = sep)) as [->|Hc].
  - right. exists [], rest. split; [done|apply not_elem_of_nil].
  - destruct IH as [Hn|(s1 & s2 & -> & Hn)].
    + left. by apply not_elem_of_cons.
    + right. exists (c :: s1), s2. split; [done|by apply not_elem_of_cons].
Qed.

Lemma str_join_cons (sep piece piece' : str) (pieces : list str) :
  str_join sep (piece :: piece' :: pieces)
  = piece ++ sep ++ str_join sep (piece' :: pieces).
Proof. reflexivity. Qed.

(** [str.split] undoes [str.join], and no piece holds the separator. *)
Lemma str_split_join sep s : str_join [sep] (str_split sep s) = s.
Proof.
  induction s as [|c rest IH]; simpl; [done|].
  pose proof (str_split_nonempty sep rest) as Hne.
  case_decide as Hc.
  - subst. destruct (str_split sep rest) as [|piece pieces]; [done|].
    by rewrite str_join_cons, IH.
  - destruct (str_split sep rest) as [|piece [|piece' pieces]]; [done|..].
    + simpl in *. by rewrite IH.
    + rewrite str_join_cons in *. rewrite <- IH. done.
Qed.

Lemma str_split_pieces sep s : Forall (λ piece, sep ∉ piece) (str_split sep s).
Proof.
  induction s as [|c rest IH]; simpl.
  - repeat constructor. apply not_elem_of_nil.
  - case_decide as Hc.
    + constructor; [apply not_elem_of_nil|done].
    + destruct (str_split sep rest) as [|piece pieces].
      * repeat constructor. apply not_elem_of_cons. split; [done|apply not_elem_of_nil].
      * apply Forall_cons_1 in IH as [Hpiece Hpieces].
        constructor; [|done]. apply not_elem_of_cons. split; [done|done].
Qed.

(** ** List comprehensions that may raise *)

Lemma mapM_cons {A B} (f : A → outcome B) (x : A) (l : list A) :
  mapM f (x :: l) = (y ← f x; k ← mapM f l; Ok (y :: k)).
Proof. reflexivity. Qed.

Lemma mapM_Ok {A B} (f : A → outcome B) (l : list A) (k : list B) :
  mapM f l = Ok k ↔ Forall2 (λ x y, f x = Ok y) l k.
Proof.
  revert k. induction l as [|x l IH]; intros k.
  - simpl. split.
    + intros [= <-]. constructor.
    + by inversion 1.
  - rewrite mapM_cons. split.
    + destruct (f x) as [y|e] eqn:Hx; simpl; [|done].
      destruct (mapM f l) as [k'|e] eqn:Hl; simpl; [|done].
      intros [= <-]. constructor; [done|]. by apply IH.
    + inversion 1 as [|? y ? k' Hx Hl]; subst.
      rewrite Hx. simpl. apply IH in Hl. rewrite Hl. done.
Qed.

Lemma mapM_length {A B} (f : A → outcome B) (l : list A) (k : list B) :
  mapM f l = Ok k → length k = length l.
Proof. rewrite mapM_Ok. intros H. symmetry. by eapply Forall2_length. Qed.

(** ** The inner [split] *)

Lemma index_pair (token : list str) :
  (t0 ← getitem token 0; t1 ← getitem token 1; Ok (Pair t0 t1)) =
  match token with
  | sub :: tag :: _ => Ok (Pair sub tag)
  | _ => Raise IndexError
  end.
Proof. by destruct token as [|sub [|tag rest]]. Qed.

Lemma index_joined (token : list str) :
  (t0 ← getitem token 0; t1 ← getitem token 1; Ok (Joined (t0 ++ [SLASH] ++ t1))) =
  match token with
  | sub :: tag :: _ => Ok (Joined (sub ++ [SLASH] ++ tag))
  | _ => Raise IndexError
  end.
Proof. by destruct token as [|sub [|tag rest]]. Qed.

(** The token loop is a comprehension over the tokens. *)
Lemma split_loop_mapM (join : bool) (tokens : list str) (res : list morph) :
  split_loop join (str_split SLASH <$> tokens) res =
  (ms ← mapM (if join then token_joined else token_pair) tokens; Ok (res ++ ms)).
Proof.
  revert res. induction tokens as [|token tokens IH]; intros res.
  - simpl. by rewrite app_nil_r.
  - rewrite fmap_cons, mapM_cons. cbn [split_loop].
    destruct join.
    + rewrite index_joined. change (token_joined token) with
        (match str_split SLASH token with
         | sub :: tag :: _ => Ok (Joined (sub ++ [SLASH] ++ tag))
         | _ => Raise IndexError
         end).
      destruct (str_split SLASH token) as [|sub [|tag rest]]; [done..|].
      rewrite !bind_Ok, IH. destruct (mapM token_joined tokens); [|done].
      rewrite !bind_Ok. by rewrite <- app_assoc.
    + rewrite index_pair. change (token_pair token) with
        (match str_split SLASH token with
         | sub :: tag :: _ => Ok (Pair sub tag)
         | _ => Raise IndexError
         end).
      destruct (str_split SLASH token) as [|sub [|tag rest]]; [done..|].
      rewrite !bind_Ok, IH. destruct (mapM token_pair tokens); [|done].
      rewrite !bind_Ok. by rewrite <- app_assoc.
Qed.

(** A line with no tab (the empty line too) is the placeholder, whatever the
    options. *)
Lemma split_without_tab (elem : str) (join split_inflect : bool) :
  TAB ∉ elem → split elem join split_inflect = Ok [placeholder].
Proof.
  intros Htab. unfold split.
  destruct elem as [|c elem]; [done|]. cbn [str_not].
  by rewrite str_split1_without.
Qed.

(** A line with a tab is cut at the first one, and the rest of [split] runs
    on the two parts. *)
Lemma split_with_tab (s t : str) (join split_inflect : bool) :
  TAB ∉ s →
  split (s ++ TAB :: t) join split_inflect =
  (inflect ← (if split_inflect then
                f4 ← getitem (str_split COMMA t) 4;
                Ok (bool_decide (f4 = lit "Inflect"))
              else Ok false);
   if inflect : bool then
     original ← getitem (str_split COMMA t) 7;
     ms ← mapM (if join then token_joined else token_pair)
               (str_split PLUS original);
     Ok ms
   else
     tag ← getitem (str_split COMMA t) 0;
     if join then Ok [Joined (s ++ [SLASH] ++ tag)] else Ok [Pair s tag]).
Proof.
  intros Htab. unfold split.
  rewrite str_split1_at by done.
  replace (str_not (s ++ TAB :: t)) with false by by destruct s.
  cbn [length bool_decide negb]. simpl.
  destruct split_inflect; simpl.
  - destruct (getitem (str_split COMMA t) 4) as [f4|e]; simpl; [|done].
    case_bool_decide; [|done].
    destruct (getitem (str_split COMMA t) 7) as [original|e]; simpl; [|done].
    rewrite split_loop_mapM. by destruct (mapM _ _).
  - done.
Qed.

(** The tag field always exists: [t.split(',')] is never empty. *)
Lemma tag_exists (t : str) : getitem (str_split COMMA t) 0 = Ok (before COMMA t).
Proof. unfold getitem. by rewrite str_split_head. Qed.

(** A token has its two pieces exactly when it holds a slash. *)
Lemma token_pair_Ok (token : str) :
  (∃ m, token_pair token = Ok m) ↔ SLASH ∈ token.
Proof.
  rewrite <- str_split_second. unfold token_pair.
  destruct (str_split SLASH token) as [|sub [|tag rest]]; simpl.
  - split; [by intros [? ?]|by intros [? ?]].
  - split; [by intros [? ?]|by intros [? ?]].
  - split; [by eexists|by eexists].
Qed.

Lemma token_joined_Ok (token : str) :
  (∃ m, token_joined token = Ok m) ↔ SLASH ∈ token.
Proof.
  rewrite <- str_split_second. unfold token_joined.
  destruct (str_split SLASH token) as [|sub [|tag rest]]; simpl.
  - split; [by intros [? ?]|by intros [? ?]].
  - split; [by intros [? ?]|by intros [? ?]].
  - split; [by eexists|by eexists].
Qed.

Lemma token_pair_Raise (token : str) (e : exn) :
  token_pair token = Raise e → e = IndexError.
Proof.
  unfold token_pair.
  destruct (str_split SLASH token) as [|sub [|tag rest]]; congruence.
Qed.

Lemma token_joined_Raise (token : str) (e : exn) :
  token_joined token = Raise e → e = IndexError.
Proof.
  unfold token_joined.
  destruct (str_split SLASH token) as [|sub [|tag rest]]; congruence.
Qed.

(** A comprehension succeeds exactly when its body does on every element,
    and otherwise raises what the body raised. *)
Lemma mapM_total {A B} (f : A → outcome B) (l : list A) :
  (∃ k, mapM f l = Ok k) ↔ Forall (λ x, ∃ y, f x = Ok y) l.
Proof.
  induction l as [|x l IH].
  - split; [constructor|by eexists].
  - rewrite mapM_cons, Forall_cons, <- IH. split.
    + intros [k Hk]. destruct (f x) as [y|]; simpl in Hk; [|done].
      destruct (mapM f l) as [k'|]; simpl in Hk; [|done].
      split; by eexists.
    + intros [[y ->] [k ->]]. by eexists.
Qed.

Lemma mapM_Raise {A B} (f : A → outcome B) (l : list A) (e : exn) :
  mapM f l = Raise e → ∃ x, x ∈ l ∧ f x = Raise e.
Proof.
  induction l as [|x l IH]; [done|]. rewrite mapM_cons.
  destruct (f x) as [y|e'] eqn:Hx; simpl.
  - destruct (mapM f l) as [k|e'] eqn:Hl; simpl; [done|].
    intros [= ->]. destruct IH as (x' & ? & ?); [done|].
    exists x'. split; [by right|done].
  - intros [= ->]. exists x. split; [by left|done].
Qed.

(** The pairs of an expansion, token by token. *)
Lemma expand_original_shape (original : str) (res : list morph) :
  expand_original original = Ok res →
  Forall2 (λ token m, ∃ tag rest,
             str_split SLASH token = before SLASH token :: tag :: rest
             ∧ m = Pair (before SLASH token) tag)
          (str_split PLUS original) res.
Proof.
  unfold expand_original. rewrite mapM_Ok. intros Hres.
  eapply Forall2_impl; [exact Hres|]. intros token m. unfold token_pair.
  pose proof (str_split_head SLASH token) as Hhead.
  destruct (str_split SLASH token) as [|sub [|tag rest]]; [done..|].
  simpl in Hhead. injection Hhead as ->. intros [= <-]. by exists tag, rest.
Qed.

(** ** Expansion of inflected lines *)

(** What [split] gives for a line with a tab and a field 4, with pairs. *)
Lemma split_with_field4 (s t f4 : str) :
  TAB ∉ s →
  str_split COMMA t !! 4%nat = Some f4 →
  split (s ++ TAB :: t) false true =
    (if bool_decide (f4 = lit "Inflect") then
       original ← getitem (str_split COMMA t) 7; expand_original original
     else Ok [Pair s (before COMMA t)])
  ∧ split (s ++ TAB :: t) false false = Ok [Pair s (before COMMA t)].
Proof.
  intros Htab Hf4. split.
  - rewrite split_with_tab by done.
    rewrite (getitem_lookup _ _ _ Hf4), !bind_Ok.
    case_bool_decide.
    + destruct (getitem (str_split COMMA t) 7) as [original|e]; [|done].
      rewrite !bind_Ok. unfold expand_original. by destruct (mapM _ _).
    + by rewrite tag_exists.
  - rewrite split_with_tab by done. by rewrite bind_Ok, tag_exists.
Qed.

(** C1.  Take a line [s <TAB> t] whose feature list [t.split(',')] has a
    field 4, [f4].  With [split_inflect=True] (and pairs, not joined strings)
    the formatter gives, when [f4] is 'Inflect', the two-level split of field
    7: first on '+', then each token on '/', one (sub-surface, sub-tag) pair
    per '+'-token in order; and when [f4] is anything else it gives the
    one-element list holding the line's own (surface, tag) pair, which is
    also what it gives with [split_inflect=False]. *)
Theorem split_expands_inflect_only (s t f4 : str) :
  TAB ∉ s →
  str_split COMMA t !! 4%nat = Some f4 →
  split (s ++ TAB :: t) false true =
    (if bool_decide (f4 = lit "Inflect") then
       original ← getitem (str_split COMMA t) 7; expand_original original
     else Ok [Pair s (before COMMA t)])
  ∧ split (s ++ TAB :: t) false false = Ok [Pair s (before COMMA t)]
  ∧ ∀ original res,
      expand_original original = Ok res →
      Forall2 (λ token m, ∃ tag rest,
                 str_split SLASH token = before SLASH token :: tag :: rest
                 ∧ m = Pair (before SLASH token) tag)
              (str_split PLUS original) res.
Proof.
  intros Htab Hf4.
  destruct (split_with_field4 s t f4 Htab Hf4) as [Hsplit Hplain].
  split_and!; [done..|]. apply expand_original_shape.
Qed.

Lemma split_expands_inflect_only_witness :
  split inflect_line false true
  = Ok [Pair [54616] (lit "VV"); Pair [50520] (lit "EP")]
  ∧ split (lit "a" ++ TAB :: noun_features) false true
    = Ok [Pair (lit "a") (lit "NNG")].
Proof.
  split.
  - pose proof (split_expands_inflect_only [54664]
      (lit "VV+EP,*,T," ++ [54664] ++ lit ",Inflect,VV,EP,"
       ++ [54616] ++ lit "/VV/*+" ++ [50520] ++ lit "/EP/*")
      (lit "Inflect") ltac:(compute_done) ltac:(reflexivity)) as [H _].
    exact H.
  - pose proof (split_expands_inflect_only (lit "a") noun_features (lit "*")
      ltac:(compute_done) ltac:(reflexivity)) as [H _].
    exact H.
Defined.

(** C10.  For a line [s <TAB> t] whose field 4 is 'Inflect' and whose field
    7 is [original], processed with [split_inflect=True]: [split] returns
    exactly when every '+'-separated token of [original] holds a '/', and
    the only exception it can raise is the [IndexError] of the out-of-range
    [token[1]]. *)
Theorem expansion_total_iff_slash (s t original : str) (join : bool) :
  TAB ∉ s →
  str_split COMMA t !! 4%nat = Some (lit "Inflect") →
  str_split COMMA t !! 7%nat = Some original →
  ((∃ res, split (s ++ TAB :: t) join true = Ok res)
     ↔ Forall (λ token, SLASH ∈ token) (str_split PLUS original))
  ∧ (split (s ++ TAB :: t) join true = Raise IndexError
     ↔ ¬ Forall (λ token, SLASH ∈ token) (str_split PLUS original)).
Proof.
  intros Htab Hf4 Hf7.
  assert (Hsplit : split (s ++ TAB :: t) join true =
                   mapM (if join then token_joined else token_pair)
                        (str_split PLUS original)).
  { rewrite split_with_tab by done.
    rewrite (getitem_lookup _ _ _ Hf4), (getitem_lookup _ _ _ Hf7).
    rewrite !bind_Ok, bool_decide_true by done. by destruct (mapM _ _). }
  assert (Htotal : (∃ res, split (s ++ TAB :: t) join true = Ok res)
                   ↔ Forall (λ token, SLASH ∈ token) (str_split PLUS original)).
  { rewrite Hsplit, mapM_total. apply Forall_proper; [|done].
    intros token. destruct join; [apply token_joined_Ok|apply token_pair_Ok]. }
  split; [done|]. rewrite <- Htotal. split.
  - intros Hraise [res Hres]. congruence.
  - intros Hnot. destruct (split (s ++ TAB :: t) join true) as [res|e] eqn:Hres.
    + destruct Hnot. by eexists.
    + f_equal. symmetry in Hsplit.
      apply mapM_Raise in Hsplit as (token & _ & Htoken).
      destruct join; [by eapply token_joined_Raise|by eapply token_pair_Raise].
Qed.

Lemma expansion_total_iff_slash_witness :
  (∃ res, split inflect_line false true = Ok res)
  ∧ split ([54664] ++ TAB :: lit "VV+EP,*,T,x,Inflect,VV,EP,y/VV+z") true true
    = Raise IndexError.
Proof.
  split.
  - apply (expansion_total_iff_slash [54664]
      (lit "VV+EP,*,T," ++ [54664] ++ lit ",Inflect,VV,EP,"
       ++ [54616] ++ lit "/VV/*+" ++ [50520] ++ lit "/EP/*")
      ([54616] ++ lit "/VV/*+" ++ [50520] ++ lit "/EP/*") false
      ltac:(compute_done) ltac:(reflexivity) ltac:(reflexivity)).
    compute_done.
  - apply (expansion_total_iff_slash [54664]
      (lit "VV+EP,*,T,x,Inflect,VV,EP,y/VV+z") (lit "y/VV+z") true
      ltac:(compute_done) ltac:(reflexivity) ltac:(reflexivity)).
    compute_done.
Defined.

(** The sub-surfaces of an expansion are the stems of the tokens. *)
Lemma token_pairs_stems (tokens : list str) (res : list morph) :
  mapM token_pair tokens = Ok res →
  ∃ pairs : list (str * str),
    res = uncurry Pair <$> pairs ∧ pairs.*1 = before SLASH <$> tokens.
Proof.
  rewrite mapM_Ok. induction 1 as [|token m tokens res Htoken _ IH].
  - by exists [].
  - destruct IH as (pairs & -> & Hstems).
    unfold token_pair in Htoken.
    pose proof (str_split_head SLASH token) as Hhead.
    destruct (str_split SLASH token) as [|sub [|tag rest]]; [done..|].
    injection Hhead as ->. injection Htoken as <-.
    exists ((before SLASH token, tag) :: pairs).
    split; [done|]. by rewrite !fmap_cons, Hstems.
Qed.

Lemma expand_original_stems (original : str) (res : list morph) :
  expand_original original = Ok res →
  ∃ pairs : list (str * str),
    res = uncurry Pair <$> pairs
    ∧ pairs.*1 = before SLASH <$> str_split PLUS original.
Proof. apply token_pairs_stems. Qed.

(** C2, counterexample.  The inflected line for U+D588 expands to the
    stem U+D558 and the ending U+C558, which concatenate to two characters,
    whereas the line emitted unsplit has the one-character surface U+D588. *)
Lemma inflect_line_surface_differs :
  split inflect_line false true
  = Ok [Pair [54616] (lit "VV"); Pair [50520] (lit "EP")]
  ∧ split inflect_line false false = Ok [Pair [54664] (lit "VV+EP")]
  ∧ [54616] ++ [50520] ≠ ([54664] : str).
Proof. split_and!; [reflexivity|reflexivity|discriminate]. Qed.

(** C2, amended.  For a line [s <TAB> t] whose field 4 is 'Inflect' and whose
    field 7 is [original], if the expansion with [split_inflect=True]
    returns, its sub-surfaces are, in order, the stems of the '+'-separated
    tokens of [original] (the text of each token before its first '/'), so
    their concatenation is the concatenation of those stems; the unsplit
    line emits the surface [s], and the two texts agree exactly when [s] is
    that concatenation of stems. *)
Theorem expansion_surface_is_stems (s t original : str) (res : list morph) :
  TAB ∉ s →
  str_split COMMA t !! 4%nat = Some (lit "Inflect") →
  str_split COMMA t !! 7%nat = Some original →
  split (s ++ TAB :: t) false true = Ok res →
  ∃ pairs : list (str * str),
    res = uncurry Pair <$> pairs
    ∧ pairs.*1 = before SLASH <$> str_split PLUS original
    ∧ split (s ++ TAB :: t) false false = Ok [Pair s (before COMMA t)]
    ∧ (concat (pairs.*1) = s
       ↔ s = concat (before SLASH <$> str_split PLUS original)).
Proof.
  intros Htab Hf4 Hf7 Hres.
  destruct (split_with_field4 s t (lit "Inflect") Htab Hf4)
    as [Hsplit Hplain].
  rewrite Hsplit, bool_decide_true, (getitem_lookup _ _ _ Hf7), bind_Ok in Hres
    by done.
  apply expand_original_stems in Hres as (pairs & -> & Hstems).
  exists pairs. split_and!; [done..|]. split; congruence.
Qed.

Lemma expansion_surface_is_stems_witness :
  ∃ pairs : list (str * str),
    [Pair [54616] (lit "VV"); Pair [50520] (lit "EP")] = uncurry Pair <$> pairs
    ∧ pairs.*1 = [[54616]; [50520]].
Proof.
  destruct (expansion_surface_is_stems [54664]
      (lit "VV+EP,*,T," ++ [54664] ++ lit ",Inflect,VV,EP,"
       ++ [54616] ++ lit "/VV/*+" ++ [50520] ++ lit "/EP/*")
      ([54616] ++ lit "/VV/*+" ++ [50520] ++ lit "/EP/*")
      [Pair [54616] (lit "VV"); Pair [50520] (lit "EP")]
      ltac:(compute_done) ltac:(reflexivity) ltac:(reflexivity)
      ltac:(reflexivity)) as (pairs & Hres & Hstems & _).
  exists pairs. split; [exact Hres|exact Hstems].
Defined.

(** ** [parse]: from lines to morphs *)

Lemma parse_unfold (result : str) (join split_inflect : bool) :
  parse result join split_inflect
  = parse_lines (but_last (splitlines result)) join split_inflect.
Proof. reflexivity. Qed.

(** The accumulating loop extends [res] by what the remaining lines give. *)
Lemma parse_loop_acc (join : bool) (elems : list str) (res : list morph) :
  parse_loop join elems res = (ms ← parse_loop join elems []; Ok (res ++ ms)).
Proof.
  revert res. induction elems as [|elem elems IH]; intros res.
  - simpl. by rewrite app_nil_r.
  - cbn [parse_loop]. destruct (split elem join true) as [morphs|e]; [|done].
    rewrite !bind_Ok, (IH (res ++ morphs)), (IH ([] ++ morphs)).
    destruct (parse_loop join elems []); [|done].
    rewrite !bind_Ok. by rewrite app_assoc.
Qed.

Lemma parse_lines_cons (elem : str) (elems : list str) (join split_inflect : bool) :
  parse_lines (elem :: elems) join split_inflect
  = (ms ← (if split_inflect then split elem join true
           else r ← split elem join false; m ← getitem r 0; Ok [m]);
     rest ← parse_lines elems join split_inflect;
     Ok (ms ++ rest)).
Proof.
  unfold parse_lines. destruct split_inflect.
  - cbn [parse_loop]. destruct (split elem join true) as [morphs|e]; [|done].
    rewrite !bind_Ok. apply parse_loop_acc.
  - rewrite mapM_cons.
    destruct (split elem join false) as [r|e]; [|done]. rewrite !bind_Ok.
    destruct (getitem r 0) as [m|e]; [|done]. rewrite !bind_Ok.
    by destruct (mapM _ elems).
Qed.

Lemma parse_lines_app (above below : list str) (join split_inflect : bool) :
  parse_lines (above ++ below) join split_inflect
  = (a ← parse_lines above join split_inflect;
     b ← parse_lines below join split_inflect;
     Ok (a ++ b)).
Proof.
  induction above as [|elem above IH].
  - replace (parse_lines [] join split_inflect) with (Ok [] : outcome (list morph))
      by by destruct split_inflect.
    rewrite bind_Ok. simpl. by destruct (parse_lines below _ _).
  - rewrite <- app_comm_cons, !parse_lines_cons, IH.
    destruct (if split_inflect then _ else _) as [ms|e]; [|done].
    rewrite !bind_Ok.
    destruct (parse_lines above _ _) as [a|e]; [|done]. rewrite !bind_Ok.
    destruct (parse_lines below _ _) as [b|e]; [|done]. rewrite !bind_Ok.
    by rewrite app_assoc.
Qed.

(** One tab-less line contributes exactly the placeholder. *)
Lemma parse_lines_tabless (elem : str) (join split_inflect : bool) :
  TAB ∉ elem → parse_lines [elem] join split_inflect = Ok [placeholder].
Proof.
  intros Htab. rewrite parse_lines_cons.
  destruct split_inflect; by rewrite split_without_tab.
Qed.

(** C3, counterexample.  The dump of one noun has two lines; the second,
    'EOS', has no tab, yet [parse] returns the noun alone: the last line of
    the dump is cut off before any line is formatted. *)
Lemma closing_line_is_dropped :
  splitlines noun_dump = [lit "a" ++ TAB :: noun_features; lit "EOS"]
  ∧ (TAB ∉ lit "EOS")
  ∧ parse noun_dump false false = Ok [Pair (lit "a") (lit "NNG")]
  ∧ parse noun_dump false true = Ok [Pair (lit "a") (lit "NNG")].
Proof. split_and!; [reflexivity|compute_done|reflexivity|reflexivity]. Qed.

(** C3, amended.  Every line of the dump other than the last one (which
    [parse] always discards) that is empty or has no tab is rendered as the
    placeholder ('', 'SY'), whatever the options: [parse] returns what the
    lines above it give, then that one placeholder, then what the lines
    below it give, and it fails only if one of those other lines fails. *)
Theorem tabless_line_is_placeholder
    (result : str) (above below : list str) (elem closing : str)
    (join split_inflect : bool) :
  splitlines result = above ++ elem :: below ++ [closing] →
  TAB ∉ elem →
  split elem join split_inflect = Ok [Pair [] (lit "SY")]
  ∧ parse result join split_inflect
    = (a ← parse_lines above join split_inflect;
       b ← parse_lines below join split_inflect;
       Ok (a ++ Pair [] (lit "SY") :: b)).
Proof.
  intros Hlines Htab. split; [by apply split_without_tab|].
  rewrite parse_unfold, Hlines.
  replace (above ++ elem :: below ++ [closing])
    with ((above ++ [elem] ++ below) ++ [closing])
    by by rewrite <- !app_assoc.
  rewrite but_last_snoc, !parse_lines_app, parse_lines_tabless by done.
  destruct (parse_lines above _ _) as [a|e]; [|done]. rewrite !bind_Ok.
  by destruct (parse_lines below _ _).
Qed.

Lemma tabless_line_is_placeholder_witness :
  parse gap_dump true false
  = Ok [Joined (lit "a/NNG"); Pair [] (lit "SY")].
Proof.
  pose proof (tabless_line_is_placeholder gap_dump
    [lit "a" ++ TAB :: noun_features] [] [] (lit "EOS") true false
    ltac:(reflexivity) ltac:(compute_done)) as [_ H].
  exact H.
Defined.

(** ** Joined output *)

Lemma token_joined_is_string (tokens : list str) (res : list morph) :
  mapM token_joined tokens = Ok res → Forall (λ m, ∃ st, m = Joined st) res.
Proof.
  rewrite mapM_Ok. induction 1 as [|token m tokens res Htoken _ IH];
    constructor; [|done].
  unfold token_joined in Htoken.
  destruct (str_split SLASH token) as [|sub [|tag rest]]; [done..|].
  injection Htoken as <-. by eexists.
Qed.

(** With [join], a line with a tab only ever gives strings. *)
Lemma split_joined_strings (s t : str) (split_inflect : bool) (res : list morph) :
  TAB ∉ s →
  split (s ++ TAB :: t) true split_inflect = Ok res →
  Forall (λ m, ∃ st, m = Joined st) res.
Proof.
  intros Htab. rewrite split_with_tab by done.
  destruct (if split_inflect then _ else _) as [[|]|e]; [| |done]; rewrite bind_Ok.
  - destruct (getitem (str_split COMMA t) 7) as [original|e]; [|done].
    rewrite bind_Ok.
    destruct (mapM token_joined _) as [ms|e] eqn:Hms; [|done].
    rewrite bind_Ok. intros [= <-]. by eapply token_joined_is_string.
  - rewrite tag_exists, bind_Ok. intros [= <-].
    constructor; [by eexists|constructor].
Qed.





(** ** [pos], [morphs] and [nouns] *)

(** Without [join] and [split_inflect] every line gives exactly one pair. *)
Lemma split_plain_is_pair (elem : str) :
  ∃ s t, split elem false false = Ok [Pair s t].
Proof.
  destruct (str_first_sep TAB elem) as [Htab|(s & t & -> & Htab)].
  - exists [], (lit "SY"). by apply split_without_tab.
  - exists s, (before COMMA t).
    rewrite split_with_tab by done. by rewrite bind_Ok, tag_exists.
Qed.

Lemma parse_lines_plain_pairs (elems : list str) :
  ∃ pairs : list (str * str),
    parse_lines elems false false = Ok (uncurry Pair <$> pairs).
Proof.
  induction elems as [|elem elems (pairs & IH)].
  - by exists [].
  - destruct (split_plain_is_pair elem) as (s & t & Helem).
    exists ((s, t) :: pairs). by rewrite parse_lines_cons, Helem, IH.
Qed.

Lemma parse_plain_pairs (result : str) :
  ∃ pairs : list (str * str),
    parse result false false = Ok (uncurry Pair <$> pairs).
Proof. rewrite parse_unfold. apply parse_lines_plain_pairs. Qed.

(** With the default options [pos] returns a list of pairs or raises. *)
Lemma pos_default_pairs {json} (self : Mecab json) (phrase : pyarg) :
  (∃ pairs : list (str * str),
     pos self phrase true false false = Ok (uncurry Pair <$> pairs))
  ∨ (∃ e, pos self phrase true false false = Raise e).
Proof.
  unfold pos.
  destruct phrase as [p| | | |]; simpl; try (right; by eexists).
  destruct (tagger_parse (tagger self) p) as [result|e]; simpl.
  - left. apply parse_plain_pairs.
  - right. by eexists.
Qed.

Lemma surfaces_of_pairs (pairs : list (str * str)) :
  mapM (λ m, '(s, t) ← unpack2 m; Ok s) (uncurry Pair <$> pairs) = Ok (pairs.*1).
Proof.
  induction pairs as [|[s t] pairs IH]; [done|].
  rewrite !fmap_cons, mapM_cons, IH. done.
Qed.

Lemma nouns_of_pairs (pairs : list (str * str)) :
  nouns_comprehension (uncurry Pair <$> pairs)
  = Ok ((filter (λ p, startswith p.2 (lit "N")) pairs).*1).
Proof.
  induction pairs as [|[s t] pairs IH]; [done|].
  rewrite fmap_cons. cbn [nouns_comprehension]. rewrite IH.
  cbn [uncurry unpack2]. rewrite !bind_Ok, filter_cons. cbn [snd].
  by destruct (startswith t (lit "N")).
Qed.

(** C4.  For every argument, [morphs phrase] is the list of the first
    components of the pairs [pos phrase] returns with its default options,
    in the same order (and it raises whatever [pos] raises). *)
Theorem morphs_are_pos_surfaces {json} (self : Mecab json) (phrase : pyarg) :
  (∃ pairs : list (str * str),
     pos self phrase true false false = Ok (uncurry Pair <$> pairs)
     ∧ morphs self phrase = Ok (pairs.*1))
  ∨ (∃ e, pos self phrase true false false = Raise e
          ∧ morphs self phrase = Raise e).
Proof.
  unfold morphs.
  destruct (pos_default_pairs self phrase) as [(pairs & ->)|(e & ->)].
  - left. exists pairs. split; [done|]. rewrite bind_Ok. apply surfaces_of_pairs.
  - right. by exists e.
Qed.

(** C5.  For every argument, [nouns phrase] is the list of the surfaces of
    those pairs of [pos phrase] whose tag starts with 'N', in the order of
    [pos phrase]; it is a subsequence of [morphs phrase]. *)
Theorem nouns_are_noun_tagged_morphs {json} (self : Mecab json) (phrase : pyarg) :
  (∃ pairs : list (str * str),
     pos self phrase true false false = Ok (uncurry Pair <$> pairs)
     ∧ morphs self phrase = Ok (pairs.*1)
     ∧ nouns self phrase
       = Ok ((filter (λ p, startswith p.2 (lit "N")) pairs).*1)
     ∧ (filter (λ p, startswith p.2 (lit "N")) pairs).*1 `sublist_of` pairs.*1)
  ∨ (∃ e, pos self phrase true false false = Raise e
          ∧ morphs self phrase = Raise e
          ∧ nouns self phrase = Raise e).
Proof.
  unfold morphs, nouns.
  destruct (pos_default_pairs self phrase) as [(pairs & ->)|(e & ->)].
  - left. exists pairs. rewrite !bind_Ok. split_and!.
    + done.
    + apply surfaces_of_pairs.
    + apply nouns_of_pairs.
    + apply fmap_sublist, sublist_filter.
  - right. by exists e.
Qed.

(** ** Whitespace-delimited segments *)

Lemma eojeols_space (c : char) (s : str) (segs : list str) :
  isspace c = true → eojeols s segs → eojeols (c :: s) segs.
Proof.
  intros Hc Hs. destruct Hs as [ws Hws|ws word rest segs Hws Hne Hword Hrest Hsegs].
  - constructor. by constructor.
  - change (c :: ws ++ word ++ rest) with ((c :: ws) ++ word ++ rest).
    constructor; [by constructor|done..].
Qed.

(** [str.split()] cuts a string into its whitespace-delimited segments. *)
Lemma str_split_ws_eojeols (s : str) : eojeols s (str_split_ws s).
Proof.
  induction s as [|c rest IH]; [by repeat constructor|].
  cbn [str_split_ws]. destruct (isspace c) eqn:Hc.
  { by apply eojeols_space. }
  destruct rest as [|c' rest'].
  { apply (eojeols_word [] [c] []); [constructor|done|by repeat constructor|by left|
                                      by repeat constructor]. }
  destruct (isspace c') eqn:Hc'.
  { apply (eojeols_word [] [c] (c' :: rest')); [constructor|done|by repeat constructor| |done].
    right. by exists c', rest'. }
  remember (c' :: rest') as r eqn:Hr.
  remember (str_split_ws r) as segs0 eqn:Hsegs0.
  destruct IH as [ws Hws|ws word rest segs Hws Hne Hword Hrest Hsegs].
  - subst ws. apply Forall_cons_1 in Hws as [Hws _]. congruence.
  - destruct ws as [|w ws].
    + apply (eojeols_word [] (c :: word) rest segs);
        [constructor|done|by constructor|done|done].
    + apply Forall_cons_1 in Hws as [Hws _]. simplify_eq/=. congruence.
Qed.

Lemma str_split_ws_spaces (ws s : str) :
  Forall (λ c, isspace c = true) ws → str_split_ws (ws ++ s) = str_split_ws s.
Proof. induction 1 as [|c ws Hc _ IH]; [done|]. simpl. by rewrite Hc. Qed.

Lemma str_split_ws_extend (c c2 : char) (s : str) :
  isspace c = false →
  isspace c2 = false →
  str_split_ws (c :: c2 :: s)
  = match str_split_ws (c2 :: s) with
    | word :: words => (c :: word) :: words
    | [] => [[c]]
    end.
Proof. intros Hc Hc2. simpl. by rewrite Hc, Hc2. Qed.

Lemma str_split_ws_word (word rest : str) :
  word ≠ [] →
  Forall (λ c, isspace c = false) word →
  (rest = [] ∨ ∃ c rest', rest = c :: rest' ∧ isspace c = true) →
  str_split_ws (word ++ rest) = word :: str_split_ws rest.
Proof.
  intros Hne Hword Hrest.
  induction Hword as [|c word Hc Hword IH]; [done|].
  destruct word as [|c2 word].
  - simpl. rewrite Hc.
    destruct Hrest as [->|(c' & rest' & -> & Hc')]; [done|]. by rewrite Hc'.
  - apply Forall_cons_1 in Hword as Hc2. destruct Hc2 as [Hc2 _].
    change ((c :: c2 :: word) ++ rest) with (c :: c2 :: (word ++ rest)).
    rewrite str_split_ws_extend by done.
    change (c2 :: (word ++ rest)) with ((c2 :: word) ++ rest).
    by rewrite IH.
Qed.

(** The segmentation of a string is unique. *)
Lemma eojeols_unique (s : str) (segs : list str) :
  eojeols s segs → segs = str_split_ws s.
Proof.
  induction 1 as [ws Hws|ws word rest segs Hws Hne Hword Hrest _ IH].
  - rewrite <- (app_nil_r ws), str_split_ws_spaces by done. done.
  - rewrite str_split_ws_spaces, str_split_ws_word by done. by rewrite IH.
Qed.

Example pos_unflattened_sample :
  pos noun_mecab (PStr (lit "ab  c")) false false false
  = Ok [[Pair (lit "ab") (lit "NNG")]; [Pair (lit "c") (lit "NNG")]]
  ∧ pos noun_mecab (PStr (lit "ab  c")) true false false
    = Ok [Pair (lit "ab  c") (lit "NNG")].
Proof. split; reflexivity. Qed.

(** C6.  With [flatten=False], [pos] on a string runs the tagger on each
    whitespace-delimited segment of the phrase alone, formats each dump with
    [parse], and returns the list of these token sequences, one per segment
    and in order: it returns [groups] exactly when every segment is tagged
    and formatted without an exception and [groups] lists the results, and
    an exception it raises was raised by the tagger or by [parse] on one of
    the segments. *)
Theorem pos_unflattened_by_eojeol {json} (self : Mecab json) (phrase : str)
    (join split_inflect : bool) :
  ∃ segs : list str,
    eojeols phrase segs
    ∧ (∀ segs', eojeols phrase segs' → segs' = segs)
    ∧ pos self (PStr phrase) false join split_inflect
      = mapM (λ eojeol,
                result ← tagger_parse (tagger self) eojeol;
                parse result join split_inflect)
             segs
    ∧ (∀ groups : list (list morph),
         pos self (PStr phrase) false join split_inflect = Ok groups
         ↔ Forall2 (λ eojeol group,
                      ∃ result, tagger_parse (tagger self) eojeol = Ok result
                                ∧ parse result join split_inflect = Ok group)
                   segs groups)
    ∧ (∀ e,
         pos self (PStr phrase) false join split_inflect = Raise e →
         ∃ eojeol, eojeol ∈ segs
                   ∧ (tagger_parse (tagger self) eojeol = Raise e
                      ∨ ∃ result, tagger_parse (tagger self) eojeol = Ok result
                                  ∧ parse result join split_inflect = Raise e)).
Proof.
  exists (str_split_ws phrase).
  assert (Hpos : pos self (PStr phrase) false join split_inflect
                 = mapM (λ eojeol,
                           result ← tagger_parse (tagger self) eojeol;
                           parse result join split_inflect)
                        (str_split_ws phrase)) by reflexivity.
  split_and!.
  - apply str_split_ws_eojeols.
  - apply eojeols_unique.
  - exact Hpos.
  - intros groups. rewrite Hpos. split.
    + intros Hgroups. apply mapM_Ok in Hgroups.
      eapply Forall2_impl; [exact Hgroups|].
      intros eojeol group Hgroup. simpl in Hgroup.
      destruct (tagger_parse (tagger self) eojeol) as [result|e]; [|done].
      by exists result.
    + intros Hgroups. apply mapM_Ok.
      eapply Forall2_impl; [exact Hgroups|].
      intros eojeol group (result & Hresult & Hgroup). simpl.
      by rewrite Hresult.
  - intros e. rewrite Hpos. intros Hraise.
    apply mapM_Raise in Hraise as (eojeol & Hin & Hraise).
    exists eojeol. split; [done|]. simpl in Hraise.
    destruct (tagger_parse (tagger self) eojeol) as [result|e'].
    + right. by exists result.
    + left. by injection Hraise as ->.
Qed.

(** ** Empty and non-text input *)

Lemma parse_short_dump (result : str) (join split_inflect : bool) :
  (length (splitlines result) ≤ 1)%nat → parse result join split_inflect = Ok [].
Proof.
  intros Hlen. rewrite parse_unfold, but_last_short by done.
  by destruct split_inflect.
Qed.

(** C7.  On the empty string [pos] returns the empty sequence and does not
    raise: with [flatten=False] always, and with [flatten=True] whenever the
    tagger answers the empty phrase with a dump of at most one line (MeCab
    prints the closing line alone).  An argument that is not a string is
    rejected with the validation error, whatever the tagger would do. *)
Theorem pos_empty_and_nontext {json} (self : Mecab json)
    (flatten join split_inflect : bool) :
  (∀ result,
     tagger_parse (tagger self) [] = Ok result →
     (length (splitlines result) ≤ 1)%nat →
     pos self (PStr []) flatten join split_inflect = Ok (no_tokens flatten))
  ∧ pos self (PStr []) false join split_inflect = Ok []
  ∧ ∀ phrase,
      (∀ s, phrase ≠ PStr s) →
      pos self phrase flatten join split_inflect = Raise ValidationError.
Proof.
  split_and!.
  - intros result Hresult Hlen. destruct flatten; [|done].
    unfold pos. cbn [validate_phrase_inputs]. rewrite bind_Ok, Hresult, bind_Ok.
    by apply parse_short_dump.
  - done.
  - intros phrase Hphrase. destruct phrase as [s| | | |]; [|done..].
    by destruct (Hphrase s).
Qed.

Lemma pos_empty_and_nontext_witness :
  pos (sample_mecab (lit "EOS" ++ [LF])) (PStr []) true false false = Ok []
  ∧ pos (sample_mecab noun_dump) PNone true false false = Raise ValidationError.
Proof.
  split.
  - apply (proj1 (pos_empty_and_nontext (sample_mecab (lit "EOS" ++ [LF]))
                    true false false) (lit "EOS" ++ [LF]));
      [reflexivity|vm_compute; lia].
  - apply (proj2 (proj2 (pos_empty_and_nontext (sample_mecab noun_dump)
                           true false false)) PNone).
    intros s. discriminate.
Defined.

(** ** Construction *)

Lemma startswith_app (p s : str) : startswith (p ++ s) p = true.
Proof.
  induction p as [|c p IH]; [done|]. simpl.
  by rewrite bool_decide_true, IH.
Qed.

Lemma str_contains_app (a hay needle : str) :
  str_contains hay needle = true → str_contains (a ++ hay) needle = true.
Proof.
  intros Hhay. induction a as [|c a IH]; [done|].
  simpl. rewrite IH. apply orb_true_r.
Qed.

Lemma str_contains_unfold (hay needle : str) :
  str_contains hay needle
  = startswith hay needle
    || match hay with
       | [] => false
       | _ :: hay' => str_contains hay' needle
       end.
Proof. by destruct hay. Qed.

Lemma str_contains_middle (a p b : str) : str_contains (a ++ p ++ b) p = true.
Proof.
  apply str_contains_app. by rewrite str_contains_unfold, startswith_app.
Qed.

(** A path that is given (and not empty) is the one the message shows. *)
Lemma init_given_path_named {json} (new_Tagger : option str → outcome Tagger)
    (DICDIR : str) (read_json : str → outcome json) (installpath path : str) :
  path ≠ [] →
  new_Tagger (Some (lit "-d " ++ path)) = Raise RuntimeError →
  init new_Tagger DICDIR read_json installpath (Some path)
  = Raise (Exception (load_error_message path))
  ∧ str_contains (load_error_message path) path = true.
Proof.
  intros Hpath Htagger. split.
  - unfold init, init_body. destruct path as [|c path]; [done|].
    cbn [truthy percent_s]. by rewrite Htagger.
  - unfold load_error_message. rewrite (app_assoc _ [DQUOTE]).
    apply str_contains_middle.
Qed.

(** C8, on the code.  When no path is given and the tagger cannot load the
    default dictionary, the exception that [__init__] raises shows the text
    'None' where the path should stand: its message is the same whatever
    the default directory [DICDIR] is. *)
Theorem init_default_path_shows_None {json}
    (new_Tagger : option str → outcome Tagger) (DICDIR : str)
    (read_json : str → outcome json) (installpath : str) :
  new_Tagger None = Raise RuntimeError →
  init new_Tagger DICDIR read_json installpath None
  = Raise (Exception (load_error_message (lit "None"))).
Proof.
  intros Htagger. unfold init, init_body.
  cbn [truthy percent_s]. by rewrite Htagger.
Qed.

Lemma init_default_path_shows_None_witness :
  init (json := unit) (λ _, Raise RuntimeError)
       (lit "/usr/local/lib/mecab/dic/mecab-ko-dic")
       (λ _, Ok ()) (lit "/usr/lib/python3/site-packages/konlpy") None
  = Raise (Exception (load_error_message (lit "None")))
  ∧ str_contains (load_error_message (lit "None"))
                 (lit "/usr/local/lib/mecab/dic/mecab-ko-dic") = false.
Proof.
  split.
  - apply (init_default_path_shows_None (json := unit)). reflexivity.
  - vm_compute. reflexivity.
Defined.

(** ** Further properties of the formatter *)

Lemma mapM_app {A B} (f : A → outcome B) (l1 l2 : list A) :
  mapM f (l1 ++ l2) = (k1 ← mapM f l1; k2 ← mapM f l2; Ok (k1 ++ k2)).
Proof.
  induction l1 as [|x l1 IH].
  - simpl. by destruct (mapM f l2).
  - rewrite <- app_comm_cons, !mapM_cons, IH.
    destruct (f x); simpl; [|done].
    destruct (mapM f l1); simpl; [|done].
    by destruct (mapM f l2).
Qed.

Lemma length_but_last {A} (l : list A) : length (but_last l) = (length l - 1)%nat.
Proof. unfold but_last. rewrite length_take. lia. Qed.

Lemma getitem_Raise {A} (l : list A) (i : nat) (e : exn) :
  getitem l i = Raise e → e = IndexError.
Proof. unfold getitem. destruct (l !! i); congruence. Qed.

(** Without [split_inflect] a line gives exactly one morph. *)
Lemma split_plain_singleton (elem : str) (join : bool) :
  ∃ m, split elem join false = Ok [m].
Proof.
  destruct (str_first_sep TAB elem) as [Htab|(s & t & -> & Htab)].
  - exists placeholder. by apply split_without_tab.
  - rewrite split_with_tab by done. rewrite bind_Ok, tag_exists, bind_Ok.
    destruct join; by eexists.
Qed.

Lemma parse_lines_plain_total (elems : list str) (join : bool) :
  ∃ ms, parse_lines elems join false = Ok ms ∧ length ms = length elems.
Proof.
  induction elems as [|elem elems (ms & IH & Hlen)].
  - by exists [].
  - destruct (split_plain_singleton elem join) as (m & Hm).
    exists (m :: ms). rewrite parse_lines_cons, Hm, IH. simpl. by rewrite Hlen.
Qed.

(** The only failure of [split] is an index out of range, and it needs
    [split_inflect]. *)
Lemma split_Raise (elem : str) (join split_inflect : bool) (e : exn) :
  split elem join split_inflect = Raise e → e = IndexError ∧ split_inflect = true.
Proof.
  destruct split_inflect.
  - intros Hraise. split; [|done]. revert Hraise.
    destruct (str_first_sep TAB elem) as [Htab|(s & t & -> & Htab)].
    { by rewrite split_without_tab. }
    rewrite split_with_tab by done.
    destruct (getitem (str_split COMMA t) 4) as [f4|e4] eqn:H4;
      [|intros [= <-]; by eapply getitem_Raise].
    rewrite !bind_Ok. case_bool_decide.
    + destruct (getitem (str_split COMMA t) 7) as [original|e7] eqn:H7;
        [|intros [= <-]; by eapply getitem_Raise].
      rewrite bind_Ok.
      destruct (mapM _ (str_split PLUS original)) as [ms|e'] eqn:Hms; [done|].
      intros [= <-]. apply mapM_Raise in Hms as (token & _ & Htoken).
      destruct join; [by eapply token_joined_Raise|by eapply token_pair_Raise].
    + rewrite tag_exists, bind_Ok. by destruct join.
  - destruct (split_plain_singleton elem join) as (m & ->). done.
Qed.

Lemma parse_lines_Raise (elems : list str) (join split_inflect : bool) (e : exn) :
  parse_lines elems join split_inflect = Raise e →
  e = IndexError ∧ split_inflect = true.
Proof.
  destruct split_inflect.
  - intros Hraise. split; [|done]. revert Hraise.
    induction elems as [|elem elems IH]; [done|].
    rewrite parse_lines_cons.
    destruct (split elem join true) as [ms|e'] eqn:Helem.
    + rewrite bind_Ok.
      destruct (parse_lines elems join true) as [rest|e'']; [done|].
      intros [= <-]. by apply IH.
    + intros [= <-]. by apply split_Raise in Helem as [-> _].
  - destruct (parse_lines_plain_total elems join) as (ms & -> & _). done.
Qed.

(** [split] never returns the empty list. *)
Lemma split_nonempty (elem : str) (join split_inflect : bool) (res : list morph) :
  split elem join split_inflect = Ok res → res ≠ [].
Proof.
  destruct (str_first_sep TAB elem) as [Htab|(s & t & -> & Htab)].
  { rewrite split_without_tab by done. by intros [= <-]. }
  rewrite split_with_tab by done.
  destruct (if split_inflect then _ else _) as [[|]|e]; [| |done]; rewrite bind_Ok.
  - destruct (getitem (str_split COMMA t) 7) as [original|e]; [|done].
    rewrite bind_Ok.
    destruct (mapM _ (str_split PLUS original)) as [ms|e] eqn:Hms; [|done].
    rewrite bind_Ok. intros [= <-] ->. apply mapM_length in Hms.
    pose proof (str_split_nonempty PLUS original) as Hne.
    by destruct (str_split PLUS original).
  - rewrite tag_exists, bind_Ok. destruct join; by intros [= <-].
Qed.

Lemma parse_lines_length_ge (elems : list str) (join split_inflect : bool)
    (ms : list morph) :
  parse_lines elems join split_inflect = Ok ms → (length elems ≤ length ms)%nat.
Proof.
  revert ms. induction elems as [|elem elems IH]; intros ms; [simpl; lia|].
  rewrite parse_lines_cons.
  destruct (if split_inflect then _ else _) as [first|e] eqn:Hfirst; [|done].
  rewrite bind_Ok.
  destruct (parse_lines elems join split_inflect) as [rest|e]; [|done].
  rewrite bind_Ok. intros [= <-]. specialize (IH rest eq_refl).
  assert (first ≠ []) as Hne.
  { destruct split_inflect; [by eapply split_nonempty|].
    destruct (split elem join false) as [r|]; [|done]. rewrite bind_Ok in Hfirst.
    destruct (getitem r 0); [|done]. by injection Hfirst as <-. }
  rewrite length_app. destruct first; [done|]. simpl. lia.
Qed.

Lemma parse_plain_one_per_line_aux (result : str) (join : bool) :
  ∃ ms, parse result join false = Ok ms
        ∧ length ms = (length (splitlines result) - 1)%nat.
Proof.
  rewrite parse_unfold.
  destruct (parse_lines_plain_total (but_last (splitlines result)) join)
    as (ms & Hms & Hlen).
  exists ms. split; [done|]. by rewrite Hlen, length_but_last.
Qed.

(** X1.  Without [split_inflect], [parse] never raises and returns exactly
    one morph for every line of the dump but the last. *)
Theorem parse_plain_one_per_line (result : str) (join : bool) :
  ∃ ms, parse result join false = Ok ms
        ∧ length ms = (length (splitlines result) - 1)%nat.
Proof. apply parse_plain_one_per_line_aux. Qed.

(** X2.  Whatever the dump, the only exception [parse] can raise is
    [IndexError], and only with [split_inflect=True]. *)
Theorem parse_raises_only_IndexError (result : str) (join split_inflect : bool)
    (e : exn) :
  parse result join split_inflect = Raise e →
  e = IndexError ∧ split_inflect = true.
Proof. rewrite parse_unfold. apply parse_lines_Raise. Qed.

Lemma parse_raises_only_IndexError_witness :
  parse (lit "a" ++ [TAB] ++ lit "NNG" ++ [LF] ++ lit "EOS" ++ [LF]) false true
  = Raise IndexError
  ∧ IndexError = IndexError ∧ true = true.
Proof.
  split; [reflexivity|].
  apply (parse_raises_only_IndexError
           (lit "a" ++ [TAB] ++ lit "NNG" ++ [LF] ++ lit "EOS" ++ [LF])
           false true IndexError).
  reflexivity.
Defined.

(** X3.  When [parse] returns, with or without [split_inflect], it has at
    least one morph for every line of the dump but the last: an expansion
    never makes a line disappear. *)
Theorem parse_at_least_one_per_line (result : str) (join split_inflect : bool)
    (ms : list morph) :
  parse result join split_inflect = Ok ms →
  (length (splitlines result) - 1 ≤ length ms)%nat.
Proof.
  rewrite parse_unfold. intros Hms. apply parse_lines_length_ge in Hms.
  by rewrite length_but_last in Hms.
Qed.

Lemma parse_at_least_one_per_line_witness :
  (length (splitlines (inflect_line ++ [LF] ++ lit "EOS" ++ [LF])) - 1
   ≤ length [Pair [54616%N] (lit "VV"); Pair [50520%N] (lit "EP")])%nat.
Proof.
  apply (parse_at_least_one_per_line
           (inflect_line ++ [LF] ++ lit "EOS" ++ [LF]) false true).
  reflexivity.
Defined.

Lemma str_split_length (sep : char) (s : list char) :
  length (str_split sep s) = S (length (filter (λ c, c = sep) s)).
Proof.
  induction s as [|c rest IH]; [done|]. rewrite filter_cons. cbn [str_split].
  pose proof (str_split_nonempty sep rest) as Hne.
  case_decide.
  - cbn [length]. by rewrite IH.
  - destruct (str_split sep rest); [done|]. cbn [length] in *. by rewrite IH.
Qed.

(** X4.  An inflected line whose expansion succeeds gives one morph more
    than its [original] field has '+' signs, pairs or joined strings
    alike. *)
Theorem expansion_counts_plus_signs (s t original : str) (join : bool)
    (res : list morph) :
  TAB ∉ s →
  str_split COMMA t !! 4%nat = Some (lit "Inflect") →
  str_split COMMA t !! 7%nat = Some original →
  split (s ++ TAB :: t) join true = Ok res →
  length res = S (length (filter (λ c, c = PLUS) original)).
Proof.
  intros Htab Hf4 Hf7. rewrite split_with_tab by done.
  rewrite (getitem_lookup _ _ _ Hf4), (getitem_lookup _ _ _ Hf7).
  rewrite !bind_Ok, bool_decide_true by done.
  destruct (mapM _ (str_split PLUS original)) as [ms|e] eqn:Hms; [|done].
  rewrite bind_Ok. intros [= <-]. apply mapM_length in Hms.
  by rewrite Hms, str_split_length.
Qed.

Lemma expansion_counts_plus_signs_witness :
  length [Joined ([54616] ++ lit "/VV"); Joined ([50520] ++ lit "/EP")]
  = S (length (filter (λ c, c = PLUS)
                      ([54616] ++ lit "/VV/*+" ++ [50520] ++ lit "/EP/*"))).
Proof.
  apply (expansion_counts_plus_signs [54664]
      (lit "VV+EP,*,T," ++ [54664] ++ lit ",Inflect,VV,EP,"
       ++ [54616] ++ lit "/VV/*+" ++ [50520] ++ lit "/EP/*")
      ([54616] ++ lit "/VV/*+" ++ [50520] ++ lit "/EP/*") true
      [Joined ([54616] ++ lit "/VV"); Joined ([50520] ++ lit "/EP")]
      ltac:(compute_done) ltac:(reflexivity) ltac:(reflexivity)
      ltac:(reflexivity)).
Defined.

(** On a line that is not inflected, [split_inflect] changes nothing. *)
Lemma split_plain_line (elem : str) (join : bool) :
  plain_line elem →
  split elem join true = split elem join false
  ∧ ∃ m, split elem join false = Ok [m].
Proof.
  intros Hplain. split; [|apply split_plain_singleton].
  destruct Hplain as [Htab|(s & t & f4 & -> & Htab & Hf4 & Hne)].
  - by rewrite !split_without_tab.
  - rewrite !split_with_tab by done.
    by rewrite (getitem_lookup _ _ _ Hf4), !bind_Ok, bool_decide_false.
Qed.

Lemma parse_lines_plain (elems : list str) (join : bool) :
  Forall plain_line elems →
  parse_lines elems join true = parse_lines elems join false.
Proof.
  induction 1 as [|elem elems Helem _ IH]; [done|].
  rewrite !parse_lines_cons, IH.
  destruct (split_plain_line elem join Helem) as [-> (m & ->)]. done.
Qed.

(** X5.  If every line of the dump but the last either has no tab or has a
    field 4 that is not 'Inflect', then [split_inflect=True] returns what
    [split_inflect=False] returns. *)
Theorem split_inflect_noop_without_inflect (result : str) (join : bool) :
  Forall plain_line (but_last (splitlines result)) →
  parse result join true = parse result join false.
Proof. rewrite !parse_unfold. apply parse_lines_plain. Qed.

Lemma split_inflect_noop_without_inflect_witness :
  parse gap_dump true true = parse gap_dump true false.
Proof.
  apply (split_inflect_noop_without_inflect gap_dump true).
  change (but_last (splitlines gap_dump))
    with [lit "a" ++ TAB :: noun_features; []].
  apply Forall_cons_2; [|apply Forall_cons_2; [|apply Forall_nil_2]].
  - right. exists (lit "a"), noun_features, (lit "*").
    split_and!; [reflexivity|compute_done|reflexivity|discriminate].
  - left. apply not_elem_of_nil.
Defined.

(** With [join], a token gives the string made of the pair it gives
    without. *)
Lemma token_joined_pair (token : str) :
  token_joined token = (m ← token_pair token; Ok (join_morph m)).
Proof.
  unfold token_joined, token_pair.
  by destruct (str_split SLASH token) as [|sub [|tag rest]].
Qed.

Lemma mapM_token_joined (tokens : list str) :
  mapM token_joined tokens
  = (ms ← mapM token_pair tokens; Ok (join_morph <$> ms)).
Proof.
  induction tokens as [|token tokens IH]; [done|].
  rewrite !mapM_cons, IH, token_joined_pair.
  destruct (token_pair token); [|done]. rewrite !bind_Ok.
  by destruct (mapM token_pair tokens).
Qed.

Lemma split_join_with_tab (s t : str) (split_inflect : bool) :
  TAB ∉ s →
  split (s ++ TAB :: t) true split_inflect
  = (ms ← split (s ++ TAB :: t) false split_inflect; Ok (join_morph <$> (ms : list morph))).
Proof.
  intros Htab. rewrite !split_with_tab by done.
  destruct (if split_inflect then _ else _) as [[|]|e]; [| |done]; rewrite !bind_Ok.
  - destruct (getitem (str_split COMMA t) 7) as [original|e]; [|done].
    rewrite !bind_Ok, mapM_token_joined.
    by destruct (mapM token_pair _).
  - by rewrite tag_exists.
Qed.

Lemma parse_lines_join (elems : list str) (split_inflect : bool) :
  Forall (λ elem, TAB ∈ elem) elems →
  parse_lines elems true split_inflect
  = (ms ← parse_lines elems false split_inflect; Ok (join_morph <$> (ms : list morph))).
Proof.
  induction 1 as [|elem elems Helem _ IH]; [by destruct split_inflect|].
  rewrite !parse_lines_cons, IH.
  destruct (str_first_sep TAB elem) as [Htab|(s & t & -> & Htab)]; [done|].
  rewrite (split_join_with_tab s t true), (split_join_with_tab s t false) by done.
  destruct split_inflect.
  - destruct (split (s ++ TAB :: t) false true) as [first|e]; [|reflexivity].
    rewrite !bind_Ok.
    destruct (parse_lines elems false true) as [rest|e]; [|reflexivity].
    rewrite !bind_Ok. by rewrite fmap_app.
  - destruct (split_plain_singleton (s ++ TAB :: t) false) as (m & ->).
    rewrite !bind_Ok.
    destruct (parse_lines elems false false) as [rest|e]; reflexivity.
Qed.

(** X6.  On a dump whose lines but the last all have a tab, [join=True]
    returns the list [join=False] returns with every pair [(s, t)] turned
    into the string [s + '/' + t], and raises when [join=False] raises. *)
Theorem join_is_pairs_joined (result : str) (split_inflect : bool) :
  Forall (λ elem, TAB ∈ elem) (but_last (splitlines result)) →
  parse result true split_inflect
  = (ms ← parse result false split_inflect; Ok (join_morph <$> (ms : list morph))).
Proof. rewrite !parse_unfold. apply parse_lines_join. Qed.

Lemma join_is_pairs_joined_witness :
  parse (inflect_line ++ [LF] ++ lit "EOS" ++ [LF]) true true
  = Ok [Joined ([54616] ++ lit "/VV"); Joined ([50520] ++ lit "/EP")].
Proof.
  rewrite (join_is_pairs_joined (inflect_line ++ [LF] ++ lit "EOS" ++ [LF]) true).
  - reflexivity.
  - change (but_last (splitlines (inflect_line ++ [LF] ++ lit "EOS" ++ [LF])))
      with [inflect_line].
    apply Forall_cons_2; [compute_done|apply Forall_nil_2].
Defined.

(** ** What the morphs are made of *)

Lemma notin_Forall (x : char) (l : list char) :
  x ∉ l ↔ Forall (λ c, c ≠ x) l.
Proof.
  induction l as [|c l IH].
  - split; [constructor|intros _; apply not_elem_of_nil].
  - rewrite not_elem_of_cons, Forall_cons, IH. naive_solver.
Qed.

Lemma before_Forall (P : char → Prop) (sep : char) (s : list char) :
  Forall P s → Forall P (before sep s).
Proof.
  induction 1 as [|c s Hc _ IH]; simpl; [constructor|].
  case_decide; by constructor.
Qed.

Lemma str_split_Forall (P : char → Prop) (sep : char) (s : list char) :
  Forall P s → Forall (Forall P) (str_split sep s).
Proof.
  induction 1 as [|c s Hc _ IH]; simpl; [by repeat constructor|].
  case_decide; [by repeat constructor|].
  destruct (str_split sep s) as [|piece pieces]; [by repeat constructor|].
  apply Forall_cons_1 in IH as [Hpiece Hpieces]. by repeat constructor.
Qed.

(** No line of [splitlines] holds a line boundary. *)
Lemma splitlines_clean_upto (n : nat) (s : list char) :
  (length s ≤ n)%nat →
  Forall (Forall (λ c, is_linebreak c = false)) (splitlines s).
Proof.
  revert s. induction n as [|n IH]; intros [|c rest] Hlen;
    [constructor|simpl in Hlen; lia|constructor|].
  simpl in Hlen. cbn [splitlines]. destruct (is_linebreak c) eqn:Hc.
  - constructor; [constructor|].
    destruct rest as [|c' rest']; [constructor|].
    case_decide; apply IH; simpl in *; lia.
  - assert (Hrest : Forall (Forall (λ c, is_linebreak c = false)) (splitlines rest))
      by (apply IH; lia).
    destruct (splitlines rest) as [|line lines]; [by repeat constructor|].
    apply Forall_cons_1 in Hrest as [Hline Hlines]. by repeat constructor.
Qed.

Lemma splitlines_clean (s : list char) :
  Forall (Forall (λ c, is_linebreak c = false)) (splitlines s).
Proof. by apply (splitlines_clean_upto (length s)). Qed.

(** The pair of a line without line boundaries. *)
Lemma split_plain_clean (elem : list char) :
  Forall (λ c, is_linebreak c = false) elem →
  ∃ s t, split elem false false = Ok [Pair s t]
         ∧ (TAB ∉ s) ∧ (COMMA ∉ t)
         ∧ Forall (λ c, is_linebreak c = false) (s ++ t).
Proof.
  intros Helem.
  destruct (str_first_sep TAB elem) as [Htab|(s & t & -> & Htab)].
  - exists [], (lit "SY"). rewrite split_without_tab by done.
    split_and!; [done|apply not_elem_of_nil|compute_done|by repeat constructor].
  - exists s, (before COMMA t). rewrite split_with_tab by done.
    rewrite bind_Ok, tag_exists, bind_Ok.
    apply Forall_app in Helem as [Hs Ht]. apply Forall_cons_1 in Ht as [_ Ht].
    split_and!; [done|done|apply before_no_sep|].
    apply Forall_app. split; [done|by apply before_Forall].
Qed.

Lemma parse_lines_plain_clean (elems : list (list char)) :
  Forall (Forall (λ c, is_linebreak c = false)) elems →
  ∃ pairs : list (str * str),
    parse_lines elems false false = Ok (uncurry Pair <$> pairs)
    ∧ Forall (λ p, (TAB ∉ p.1) ∧ (COMMA ∉ p.2)
                   ∧ Forall (λ c, is_linebreak c = false) (p.1 ++ p.2)) pairs.
Proof.
  induction 1 as [|elem elems Helem _ (pairs & IH & Hpairs)].
  - exists []. split; [done|constructor].
  - destruct (split_plain_clean elem Helem) as (s & t & Hsplit & Hclean).
    exists ((s, t) :: pairs). split.
    + by rewrite parse_lines_cons, Hsplit, IH.
    + by constructor.
Qed.

(** X7.  With the default options every morph of [parse] is a pair whose
    surface holds no tab, whose tag holds no comma, and neither holds a line
    boundary. *)
Theorem parse_plain_pairs_clean (result : str) :
  ∃ pairs : list (str * str),
    parse result false false = Ok (uncurry Pair <$> pairs)
    ∧ Forall (λ p, (TAB ∉ p.1) ∧ (COMMA ∉ p.2)
                   ∧ Forall (λ c, is_linebreak c = false) (p.1 ++ p.2)) pairs.
Proof.
  rewrite parse_unfold. apply parse_lines_plain_clean.
  unfold but_last. apply Forall_take, splitlines_clean.
Qed.

(** X8.  In the pairs an inflected line expands to, neither the sub-surface
    nor the sub-tag holds a '/' or a '+'. *)
Theorem expansion_pieces_clean (s t original : str) (res : list morph) :
  TAB ∉ s →
  str_split COMMA t !! 4%nat = Some (lit "Inflect") →
  str_split COMMA t !! 7%nat = Some original →
  split (s ++ TAB :: t) false true = Ok res →
  Forall (λ m, ∃ sub tag, m = Pair sub tag
                          ∧ (SLASH ∉ sub) ∧ (PLUS ∉ sub)
                          ∧ (SLASH ∉ tag) ∧ (PLUS ∉ tag)) res.
Proof.
  intros Htab Hf4 Hf7. rewrite split_with_tab by done.
  rewrite (getitem_lookup _ _ _ Hf4), (getitem_lookup _ _ _ Hf7).
  rewrite !bind_Ok, bool_decide_true by done.
  destruct (mapM token_pair (str_split PLUS original)) as [ms|e] eqn:Hms; [|done].
  rewrite bind_Ok. intros [= <-].
  apply mapM_Ok in Hms. pose proof (str_split_pieces PLUS original) as Hplus.
  induction Hms as [|token m tokens ms Htoken _ IH]; [constructor|].
  apply Forall_cons_1 in Hplus as [Hplus Htokens].
  constructor; [|by apply IH].
  unfold token_pair in Htoken.
  pose proof (str_split_pieces SLASH token) as Hslash.
  pose proof (str_split_Forall (λ c, c ≠ PLUS) SLASH token) as Hsub.
  rewrite <- notin_Forall in Hsub. specialize (Hsub Hplus).
  destruct (str_split SLASH token) as [|sub [|tag rest]]; [done..|].
  injection Htoken as <-. exists sub, tag.
  apply Forall_cons_1 in Hslash as [Hs1 Hslash].
  apply Forall_cons_1 in Hslash as [Hs2 _].
  apply Forall_cons_1 in Hsub as [Hp1 Hsub].
  apply Forall_cons_1 in Hsub as [Hp2 _].
  rewrite <- notin_Forall in Hp1, Hp2. done.
Qed.

Lemma expansion_pieces_clean_witness :
  Forall (λ m, ∃ sub tag, m = Pair sub tag
                          ∧ (SLASH ∉ sub) ∧ (PLUS ∉ sub)
                          ∧ (SLASH ∉ tag) ∧ (PLUS ∉ tag))
         [Pair [54616] (lit "VV"); Pair [50520] (lit "EP")].
Proof.
  apply (expansion_pieces_clean [54664]
      (lit "VV+EP,*,T," ++ [54664] ++ lit ",Inflect,VV,EP,"
       ++ [54616] ++ lit "/VV/*+" ++ [50520] ++ lit "/EP/*")
      ([54616] ++ lit "/VV/*+" ++ [50520] ++ lit "/EP/*")
      [Pair [54616] (lit "VV"); Pair [50520] (lit "EP")]
      ltac:(compute_done) ltac:(reflexivity) ltac:(reflexivity)
      ltac:(reflexivity)).
Defined.

(** ** Segments and [pos] *)

Lemma str_split_ws_blank (ws : list char) :
  Forall (λ c, isspace c = true) ws → str_split_ws ws = [].
Proof.
  intros Hws. rewrite <- (app_nil_r ws). by rewrite str_split_ws_spaces.
Qed.

(** Segments of a phrase followed by whitespace and a second phrase. *)
Lemma str_split_ws_app (a b : list char) (c : char) :
  isspace c = true →
  str_split_ws (a ++ c :: b) = str_split_ws a ++ str_split_ws b.
Proof.
  intros Hc. pose proof (str_split_ws_eojeols a) as Ha.
  induction Ha as [ws Hws|ws word rest segs Hws Hne Hword Hrest _ IH].
  - rewrite str_split_ws_spaces by done.
    change (c :: b) with ([c] ++ b).
    by rewrite str_split_ws_spaces by by repeat constructor.
  - rewrite <- !app_assoc, str_split_ws_spaces by done.
    rewrite str_split_ws_word; [by rewrite IH|done|done|].
    right. destruct Hrest as [->|(c' & rest' & -> & Hc')].
    + by exists c, b.
    + by exists c', (rest' ++ c :: b).
Qed.

(** X9.  With [flatten=False], a phrase made of whitespace only (the empty
    phrase too) gives the empty list, and the tagger is not consulted: the
    result is the same for a tagger that raises on every phrase. *)
Theorem pos_blank_phrase {json} (self : Mecab json) (phrase : str)
    (join split_inflect : bool) :
  Forall (λ c, isspace c = true) phrase →
  pos self (PStr phrase) false join split_inflect = Ok [].
Proof.
  intros Hblank. unfold pos. cbn [validate_phrase_inputs]. rewrite bind_Ok.
  by rewrite str_split_ws_blank.
Qed.

Lemma pos_blank_phrase_witness :
  pos failing_mecab (PStr (lit "  " ++ [TAB; 12288])) false true true = Ok [].
Proof.
  apply (pos_blank_phrase failing_mecab (lit "  " ++ [TAB; 12288]) true true).
  repeat constructor.
Defined.

(** X10.  With [flatten=False], a phrase that is one whitespace-free word,
    with any whitespace before and after it, gives the one-element list
    holding what [flatten=True] gives for the bare word, and raises what
    that call raises. *)
Theorem pos_single_eojeol {json} (self : Mecab json) (before_ws word after_ws : str)
    (join split_inflect : bool) :
  Forall (λ c, isspace c = true) before_ws →
  word ≠ [] →
  Forall (λ c, isspace c = false) word →
  Forall (λ c, isspace c = true) after_ws →
  pos self (PStr (before_ws ++ word ++ after_ws)) false join split_inflect
  = (ms ← pos self (PStr word) true join split_inflect;
     Ok [ms : list morph]).
Proof.
  intros Hbefore Hne Hword Hafter.
  assert (Hsegs : str_split_ws (before_ws ++ word ++ after_ws) = [word]).
  { rewrite str_split_ws_spaces, str_split_ws_word, str_split_ws_blank; try done.
    destruct Hafter as [|c rest Hc _]; [by left|right; by exists c, rest]. }
  unfold pos. cbn [validate_phrase_inputs]. rewrite !bind_Ok, Hsegs.
  rewrite mapM_cons.
  destruct (tagger_parse (tagger self) word) as [result|e]; [|reflexivity].
  rewrite !bind_Ok. by destruct (parse result join split_inflect).
Qed.

Lemma pos_single_eojeol_witness :
  pos noun_mecab (PStr (lit " " ++ lit "ab" ++ lit "  ")) false false false
  = Ok [[Pair (lit "ab") (lit "NNG")]].
Proof.
  apply (pos_single_eojeol noun_mecab (lit " ") (lit "ab") (lit "  ")
           false false).
  - repeat constructor.
  - discriminate.
  - repeat constructor.
  - repeat constructor.
Defined.

(** X11.  With [flatten=False], the result for two phrases joined by a
    whitespace character is the result for the first followed by the result
    for the second; it raises what the first call raises, else what the
    second raises. *)
Theorem pos_unflattened_concat {json} (self : Mecab json) (a b : str) (c : char)
    (join split_inflect : bool) :
  isspace c = true →
  pos self (PStr (a ++ c :: b)) false join split_inflect
  = (x ← pos self (PStr a) false join split_inflect;
     y ← pos self (PStr b) false join split_inflect;
     Ok (x ++ y : list (list morph))).
Proof.
  intros Hc. unfold pos. cbn [validate_phrase_inputs]. rewrite !bind_Ok.
  rewrite str_split_ws_app by done. apply mapM_app.
Qed.

Lemma pos_unflattened_concat_witness :
  pos noun_mecab (PStr (lit "ab c" ++ 32 :: lit "d")) false false false
  = Ok [[Pair (lit "ab") (lit "NNG")]; [Pair (lit "c") (lit "NNG")];
        [Pair (lit "d") (lit "NNG")]].
Proof.
  exact (pos_unflattened_concat noun_mecab (lit "ab c") (lit "d") 32
           false false eq_refl).
Defined.

(** X12.  For a string phrase that the tagger answers with a dump, [morphs]
    and [nouns] do not raise; [morphs] has exactly one surface for every
    line of the dump but the last, and [nouns] has at most as many. *)
Theorem morphs_one_per_line {json} (self : Mecab json) (phrase result : str) :
  tagger_parse (tagger self) phrase = Ok result →
  ∃ ms ns : list str,
    morphs self (PStr phrase) = Ok ms
    ∧ length ms = (length (splitlines result) - 1)%nat
    ∧ nouns self (PStr phrase) = Ok ns
    ∧ (length ns ≤ length ms)%nat.
Proof.
  intros Hresult.
  destruct (parse_plain_pairs result) as (pairs & Hpairs).
  destruct (parse_plain_one_per_line_aux result false) as (ms & Hms & Hlen).
  assert (Hpos : pos self (PStr phrase) true false false
                 = Ok (uncurry Pair <$> pairs)).
  { unfold pos. cbn [validate_phrase_inputs]. by rewrite bind_Ok, Hresult, bind_Ok. }
  exists (pairs.*1), ((filter (λ p, startswith p.2 (lit "N")) pairs).*1).
  unfold morphs, nouns. rewrite Hpos, !bind_Ok. split_and!.
  - apply surfaces_of_pairs.
  - rewrite Hpairs in Hms. injection Hms as <-.
    by rewrite !length_fmap in *.
  - apply nouns_of_pairs.
  - rewrite !length_fmap. apply length_filter.
Qed.

Lemma morphs_one_per_line_witness :
  ∃ ms ns : list str,
    morphs noun_mecab (PStr (lit "ab")) = Ok ms
    ∧ length ms = 1%nat
    ∧ nouns noun_mecab (PStr (lit "ab")) = Ok ns
    ∧ (length ns ≤ length ms)%nat.
Proof.
  apply (morphs_one_per_line noun_mecab (lit "ab")
           (lit "ab" ++ [TAB] ++ noun_features ++ [LF] ++ lit "EOS" ++ [LF])).
  reflexivity.
Defined.

(** ** Construction and pickling *)

(** What a successful [__init__] has done. *)
Lemma init_Ok {json} (new_Tagger : option str → outcome Tagger) (DICDIR : str)
    (read_json : str → outcome json) (installpath : str)
    (dicpath0 : option str) (self : Mecab json) :
  init new_Tagger DICDIR read_json installpath dicpath0 = Ok self ↔
  ∃ tg ts,
    new_Tagger (if truthy dicpath0 then Some (lit "-d " ++ percent_s dicpath0)
                else None) = Ok tg
    ∧ read_json (installpath ++ lit "/data/tagset/mecab.json") = Ok ts
    ∧ self = {| dicpath := if truthy dicpath0 then percent_s dicpath0 else DICDIR;
                tagger := tg; tagset := ts |}.
Proof.
  unfold init, init_body. destruct (truthy dicpath0).
  - destruct (new_Tagger _) as [tg|e]; simpl.
    + destruct (read_json _) as [ts|e]; simpl.
      * split; [intros [= <-]; by eexists _, _|].
        by intros (? & ? & [= <-] & [= <-] & ->).
      * split; [by destruct e|by intros (? & ? & _ & ? & _)].
    + split; [by destruct e|by intros (? & ? & ? & _)].
  - destruct (new_Tagger _) as [tg|e]; simpl.
    + destruct (read_json _) as [ts|e]; simpl.
      * split; [intros [= <-]; by eexists _, _|].
        by intros (? & ? & [= <-] & [= <-] & ->).
      * split; [by destruct e|by intros (? & ? & _ & ? & _)].
    + split; [by destruct e|by intros (? & ? & ? & _)].
Qed.

(** X13.  [__init__] never lets a [RuntimeError] out.  Whatever the tagger
    constructor raises, or the tagset reader once the tagger is built, comes
    out unchanged, except a [RuntimeError], which comes out as the exception
    with the dictionary message, also when it is the tagset reader that
    raised it. *)
Theorem init_replaces_RuntimeError {json}
    (new_Tagger : option str → outcome Tagger) (DICDIR : str)
    (read_json : str → outcome json) (installpath : str) (dicpath0 : option str) :
  init new_Tagger DICDIR read_json installpath dicpath0 ≠ Raise RuntimeError
  ∧ ∀ e,
      (new_Tagger (if truthy dicpath0 then Some (lit "-d " ++ percent_s dicpath0)
                   else None) = Raise e
       ∨ ∃ tg,
           new_Tagger (if truthy dicpath0
                       then Some (lit "-d " ++ percent_s dicpath0)
                       else None) = Ok tg
           ∧ read_json (installpath ++ lit "/data/tagset/mecab.json") = Raise e) →
      init new_Tagger DICDIR read_json installpath dicpath0
      = Raise match e with
              | RuntimeError =>
                  Exception (load_error_message (percent_s dicpath0))
              | _ => e
              end.
Proof.
  split.
  - unfold init. by destruct (init_body _ _ _ _ _) as [|[]].
  - intros e He. unfold init, init_body.
    destruct (truthy dicpath0);
      destruct He as [->|(tg & -> & ->)]; by destruct e.
Qed.

Lemma init_replaces_RuntimeError_witness :
  init (json := unit) sample_new_Tagger (lit "/default")
       (λ _, Raise RuntimeError) (lit "/konlpy") (Some (lit "/dic"))
  = Raise (Exception (load_error_message (lit "/dic"))).
Proof.
  apply (proj2 (init_replaces_RuntimeError (json := unit) sample_new_Tagger
                  (lit "/default") (λ _, Raise RuntimeError) (lit "/konlpy")
                  (Some (lit "/dic"))) RuntimeError).
  right. exists noun_tagger. split; reflexivity.
Defined.

(** X14.  A state made by [__getstate__] from an engine that [__init__]
    built for a given, non-empty path restores to that same engine. *)
Theorem pickle_round_trip {json} (new_Tagger : option str → outcome Tagger)
    (DICDIR : str) (read_json : str → outcome json) (installpath : str)
    (dicpath0 : option str) (self : Mecab json) :
  init new_Tagger DICDIR read_json installpath dicpath0 = Ok self →
  truthy dicpath0 = true →
  setstate new_Tagger DICDIR read_json installpath (getstate self)
  = Restored self.
Proof.
  intros Hinit Htruthy. unfold setstate, getstate.
  rewrite lookup_singleton_eq.
  assert (Some (dicpath self) = dicpath0) as ->; [|by rewrite Hinit].
  apply init_Ok in Hinit as (tg & ts & _ & _ & ->). rewrite Htruthy. simpl.
  by destruct dicpath0 as [[|c path]|].
Qed.

Lemma pickle_round_trip_witness :
  setstate sample_new_Tagger (lit "/default") sample_read_json (lit "/konlpy")
    (getstate {| dicpath := lit "/dic"; tagger := noun_tagger; tagset := () |})
  = Restored {| dicpath := lit "/dic"; tagger := noun_tagger; tagset := () |}.
Proof.
  apply (pickle_round_trip sample_new_Tagger (lit "/default") sample_read_json
           (lit "/konlpy") (Some (lit "/dic"))); reflexivity.
Defined.

(** X15.  Whatever the argument an engine was built with, if restoring its
    state succeeds, the restored engine has the same [dicpath] and the same
    tagset; the tagger is rebuilt from that path, also when the engine had
    been built with no path. *)
Theorem restore_keeps_dicpath {json} (new_Tagger : option str → outcome Tagger)
    (DICDIR : str) (read_json : str → outcome json) (installpath : str)
    (dicpath0 : option str) (self self' : Mecab json) :
  init new_Tagger DICDIR read_json installpath dicpath0 = Ok self →
  setstate new_Tagger DICDIR read_json installpath (getstate self)
  = Restored self' →
  dicpath self' = dicpath self
  ∧ tagset self' = tagset self
  ∧ new_Tagger (if truthy (Some (dicpath self))
                then Some (lit "-d " ++ dicpath self) else None)
    = Ok (tagger self').
Proof.
  intros Hinit. unfold setstate, getstate. rewrite lookup_singleton_eq.
  destruct (init _ _ _ _ (Some (dicpath self))) as [restored|e] eqn:Hrestore;
    [|done].
  intros [= ->].
  apply init_Ok in Hinit as (tg & ts & Htg & Hts & ->).
  apply init_Ok in Hrestore as (tg' & ts' & Htg' & Hts' & ->).
  cbn [dicpath tagset tagger percent_s] in *.
  rewrite Hts in Hts'. injection Hts' as <-.
  split_and!; [|done|done].
  destruct (truthy dicpath0) eqn:Htruthy; [by destruct dicpath0 as [[|]|]|].
  by destruct DICDIR.
Qed.

Lemma restore_keeps_dicpath_witness :
  dicpath {| dicpath := lit "/dic"; tagger := noun_tagger; tagset := () |}
  = lit "/dic"
  ∧ tagset {| dicpath := lit "/dic"; tagger := noun_tagger; tagset := () |} = ()
  ∧ sample_new_Tagger (Some (lit "-d /dic")) = Ok noun_tagger.
Proof.
  apply (restore_keeps_dicpath sample_new_Tagger (lit "/dic") sample_read_json
           (lit "/konlpy") None
           {| dicpath := lit "/dic"; tagger := noun_tagger; tagset := () |}
           {| dicpath := lit "/dic"; tagger := noun_tagger; tagset := () |});
    reflexivity.
Defined.

(** X16.  When a non-empty path is given and construction meets a
    [RuntimeError], from the tagger constructor called with ['-d ' + path] or
    from the tagset reader after it, the exception raised carries the
    dictionary message, and that message holds the given path. *)
Theorem given_path_is_named {json} (new_Tagger : option str → outcome Tagger)
    (DICDIR : str) (read_json : str → outcome json) (installpath path : str) :
  path ≠ [] →
  (new_Tagger (Some (lit "-d " ++ path)) = Raise RuntimeError
   ∨ ∃ tg, new_Tagger (Some (lit "-d " ++ path)) = Ok tg
           ∧ read_json (installpath ++ lit "/data/tagset/mecab.json")
             = Raise RuntimeError) →
  ∃ msg, init new_Tagger DICDIR read_json installpath (Some path)
         = Raise (Exception msg)
         ∧ str_contains msg path = true.
Proof.
  intros Hpath Hraise. exists (load_error_message path). split.
  - unfold init, init_body. destruct path as [|c path]; [done|].
    cbn [truthy percent_s]. by destruct Hraise as [->|(tg & -> & ->)].
  - unfold load_error_message. rewrite (app_assoc _ [DQUOTE]).
    apply str_contains_middle.
Qed.

Lemma given_path_is_named_witness :
  ∃ msg, init (json := unit) sample_new_Tagger (lit "/default") sample_read_json
              (lit "/konlpy") (Some (lit "/missing"))
         = Raise (Exception msg)
         ∧ str_contains msg (lit "/missing") = true.
Proof.
  apply (given_path_is_named (json := unit) sample_new_Tagger (lit "/default")
           sample_read_json (lit "/konlpy") (lit "/missing"));
    [discriminate|left; reflexivity].
Defined.
